(** * psutil: the identity-and-normalization layer of [psutil/_common.py]

    A shallow embedding of the helper functions of [psutil/_common.py]
    ([usage_percent], [memoize], [parse_environ_block], [sockfam_to_enum],
    [socktype_to_enum], [conn_tmap]) and of the error rendering and the
    process identity that [psutil/tests/test_misc.py] exercises, followed by
    the properties stated about them.

    Python values are modelled as follows.
    - [str] is a byte string: Rocq's [string]; positions are [Z] because
      [str.find] answers [-1];
    - [dict] is stdpp's [gmap]; [frozenset] is [gset];
    - [int] is [Z] (unbounded); [float] is an IEEE 754 binary64 number,
      [spec_float] with [prec = 53] and [emax = 1024];
    - a function that may raise returns an [outcome];
    - the module-level platform constants ([WINDOWS], [AF_INET6], the [enum]
      module, ...) are arguments of the definitions that read them. *)

From Stdlib Require Import ZArith Lia Ascii String List.
From Stdlib Require Import Floats.SpecFloat.
From stdpp Require Import gmap strings list fin_maps sorting pretty.

Open Scope Z_scope.

(** ** Python byte strings *)

Module PyStr.

(** [len(s)] *)
Definition len (s : string) : Z := Z.of_nat (String.length s).

(** [s[n:]] for a position [n] counted from the start. *)
Fixpoint skip (n : nat) (s : string) : string :=
  match n, s with
  | O, _ => s
  | S _, EmptyString => EmptyString
  | S n', String _ s' => skip n' s'
  end.

(** [s[:n]] for a position [n] counted from the start. *)
Fixpoint prefix (n : nat) (s : string) : string :=
  match n, s with
  | O, _ => EmptyString
  | S _, EmptyString => EmptyString
  | S n', String a s' => String a (prefix n' s')
  end.

(** How Python places a slice bound [i] in a sequence of length [n]: a
    negative bound counts from the end, and the result is clipped to
    [0..n]. *)
Definition adjust (n i : Z) : Z :=
  if i <? 0 then Z.max 0 (i + n) else Z.min i n.

(** [s[i:j]] *)
Definition slice (s : string) (i j : Z) : string :=
  let a := adjust (len s) i in
  let b := adjust (len s) j in
  prefix (Z.to_nat (b - a)) (skip (Z.to_nat a) s).

(** Offset of the first occurrence of the character [c] in [s]. *)
Fixpoint index_of (c : ascii) (s : string) : option nat :=
  match s with
  | EmptyString => None
  | String a s' =>
      if Ascii.eqb a c then Some O
      else match index_of c s' with
           | Some i => Some (S i)
           | None => None
           end
  end.

(** [s.find(c, start, stop)] for a one-character [c]: the lowest position
    of [c] inside [s[start:stop]], or [-1]. *)
Definition find (s : string) (c : ascii) (start stop : Z) : Z :=
  let a := adjust (len s) start in
  match index_of c (slice s start stop) with
  | Some i => a + Z.of_nat i
  | None => -1
  end.

(** [s.find(c, start)]: the search runs to the end of [s]. *)
Definition find_from (s : string) (c : ascii) (start : Z) : Z :=
  find s c start (len s).

(** [c.upper()] on one byte: the letters [a..z] move to [A..Z]. *)
Definition upper_ascii (c : ascii) : ascii :=
  let n := nat_of_ascii c in
  if ((97 <=? n) && (n <=? 122))%nat then ascii_of_nat (n - 32) else c.

(** [s.upper()] on a byte string (a Python 2 [str]).  On text whose
    characters are all ASCII this is also what the [str.upper()] of
    Python 3 gives; on other text Python 3 follows Unicode ([is_ascii]
    marks the blocks on which the two agree). *)
Fixpoint upper (s : string) : string :=
  match s with
  | EmptyString => EmptyString
  | String a s' => String (upper_ascii a) (upper s')
  end.

End PyStr.

(** ** [parse_environ_block] *)

Module Environ.
Import PyStr.

Definition NUL : ascii := "000"%char.
Definition EQUALS : ascii := "="%char.

(** The one-character string ["\0"], to write blocks down. *)
Definition nul : string := String NUL EmptyString.

(** The body of [while True:]. [fuel] bounds the number of rounds; [None]
    means the bound was reached before the loop ended. *)
Fixpoint parse_loop (WINDOWS_ : bool) (fuel : nat) (data : string)
    (pos : Z) (ret : gmap string string) : option (gmap string string) :=
  match fuel with
  | O => None
  | S fuel' =>
      let next_pos := find_from data NUL pos in
      if next_pos <=? pos then Some ret
      else
        let equal_pos := find data EQUALS pos next_pos in
        let ret :=
          if equal_pos >? pos then
            let key := slice data pos equal_pos in
            let value := slice data (equal_pos + 1) next_pos in
            let key := if WINDOWS_ then upper key else key in
            <[key := value]> ret
          else ret in
        parse_loop WINDOWS_ fuel' data (next_pos + 1) ret
  end.

(** [parse_environ_block(data)] on a platform whose [WINDOWS] constant is
    the first argument. Every round moves [pos] past one more terminator,
    so [len(data) + 1] rounds are enough ([parse_loop_complete]). *)
Definition parse_environ_block (WINDOWS : bool) (data : string)
    : option (gmap string string) :=
  parse_loop WINDOWS (S (String.length data)) data 0 ∅.

(** *** The parser in the words of its description *)

(** The block cut at its terminators: the terminated entries in order, and
    the unterminated rest. *)
Fixpoint split_nul (s : string) : list string * string :=
  match s with
  | EmptyString => ([], EmptyString)
  | String a s' =>
      let '(es, t) := split_nul s' in
      if Ascii.eqb a NUL then (EmptyString :: es, t)
      else match es with
           | e :: es' => (String a e :: es', t)
           | [] => ([], String a t)
           end
  end.

(** The entries in front of the first empty one: an empty entry is a
    terminator at the start of the block or right after another one. *)
Fixpoint until_empty (es : list string) : list string :=
  match es with
  | [] => []
  | EmptyString :: _ => []
  | e :: es' => e :: until_empty es'
  end.

Definition complete_entries (data : string) : list string :=
  until_empty (fst (split_nul data)).

(** An entry cut at its first [=]. *)
Fixpoint split_eq (e : string) : option (string * string) :=
  match e with
  | EmptyString => None
  | String a e' =>
      if Ascii.eqb a EQUALS then Some (EmptyString, e')
      else match split_eq e' with
           | Some (k, v) => Some (String a k, v)
           | None => None
           end
  end.

(** The assignment an entry makes: none without [=], none with an empty
    key. *)
Definition assignment (e : string) : option (string * string) :=
  match split_eq e with
  | Some (EmptyString, _) => None
  | Some (k, v) => Some (k, v)
  | None => None
  end.

(** The platform's spelling of a variable name. *)
Definition norm_key (WINDOWS : bool) (key : string) : string :=
  if WINDOWS then upper key else key.

(** The assignments of a block, in order, keys in the platform's spelling. *)
Definition assignments (WINDOWS : bool) (data : string)
    : list (string * string) :=
  prod_map (norm_key WINDOWS) id <$> omap assignment (complete_entries data).

(** Storing assignments one after the other. *)
Definition store_all (kvs : list (string * string))
    (ret : gmap string string) : gmap string string :=
  foldl (λ m kv, <[kv.1 := kv.2]> m) ret kvs.

Definition environ_of (WINDOWS : bool) (data : string) : gmap string string :=
  store_all (assignments WINDOWS data) ∅.

(** The value of the last assignment to [k] in a list. *)
Fixpoint last_value (k : string) (kvs : list (string * string))
    : option string :=
  match kvs with
  | [] => None
  | (k', v) :: kvs' =>
      match last_value k kvs' with
      | Some v' => Some v'
      | None => if decide (k' = k) then Some v else None
      end
  end.

End Environ.

(** ** Calls that may raise *)

Module Py.

(** What a call gives: a value, or a raised exception of type [E]. *)
Inductive outcome (E A : Type) : Type :=
  | Return (a : A)
  | Raise (e : E).
Arguments Return {E A} a.
Arguments Raise {E A} e.

Definition bind {E A B : Type} (x : outcome E A) (f : A → outcome E B)
    : outcome E B :=
  match x with
  | Return a => f a
  | Raise e => Raise e
  end.

(** The call returned a value. *)
Definition returns {E A : Type} (x : outcome E A) : Prop :=
  ∃ a, x = Return a.

End Py.

(** ** [usage_percent] *)

Module Percent.
Import Py.

(** Python's [float] is binary64. *)
Definition prec : Z := 53.
Definition emax : Z := 1024.

(** The numbers [usage_percent] is called with. *)
Inductive number : Type :=
  | PyInt (n : Z)
  | PyFloat (x : spec_float).

Inductive exn : Type :=
  | ZeroDivisionError
  | OverflowError.

(** [isinstance(x, float)] *)
Definition isinstance_float (x : number) : bool :=
  match x with
  | PyFloat _ => true
  | PyInt _ => false
  end.

(** [x == 0.0] on floats: both zeros are zero. *)
Definition float_is_zero (x : spec_float) : bool :=
  match x with
  | S754_zero _ => true
  | _ => false
  end.

(** [x == 0] *)
Definition is_zero (x : number) : bool :=
  match x with
  | PyInt n => n =? 0
  | PyFloat x => float_is_zero x
  end.

(** The conversion of an [int] operand of a float operation: the nearest
    float, ties to even; an [int] beyond the float range raises
    [OverflowError] ("int too large to convert to float"). *)
Definition long_as_double (n : Z) : outcome exn spec_float :=
  match binary_normalize prec emax n 0 false with
  | S754_infinity _ => Raise OverflowError
  | x => Return x
  end.

(** An [int] as an exact, unrounded binary number. *)
Definition exact (n : Z) : spec_float :=
  match n with
  | Z0 => S754_zero false
  | Zpos p => S754_finite false p 0
  | Zneg p => S754_finite true p 0
  end.

(** [a / b] on two [int]s under [from __future__ import division]: the
    correctly rounded quotient. *)
Definition long_true_divide (a b : Z) : outcome exn number :=
  if b =? 0 then Raise ZeroDivisionError
  else match SFdiv prec emax (exact a) (exact b) with
       | S754_infinity _ => Raise OverflowError
       | q => Return (PyFloat q)
       end.

(** The operand of a float operation as a float. *)
Definition to_double (x : number) : outcome exn spec_float :=
  match x with
  | PyFloat x => Return x
  | PyInt n => long_as_double n
  end.

(** [x / y] when one operand at least is a [float]: both operands are
    converted first, then a zero divisor raises. *)
Definition float_div (x y : number) : outcome exn number :=
  bind (to_double x) (λ a,
  bind (to_double y) (λ b,
  if float_is_zero b then Raise ZeroDivisionError
  else Return (PyFloat (SFdiv prec emax a b)))).

(** [x / y] *)
Definition truediv (x y : number) : outcome exn number :=
  match x, y with
  | PyInt a, PyInt b => long_true_divide a b
  | _, _ => float_div x y
  end.

(** [x * y] *)
Definition mul (x y : number) : outcome exn number :=
  match x, y with
  | PyInt a, PyInt b => Return (PyInt (a * b))
  | _, _ =>
      bind (to_double x) (λ a,
      bind (to_double y) (λ b,
      Return (PyFloat (SFmul prec emax a b))))
  end.

Section UsagePercent.

(** The builtin [round(number, ndigits)] with an [int] number of digits,
    where it returns.  For some finite floats and negative numbers of
    digits the builtin raises [OverflowError]; this parameter has no such
    case, so what is proved of a call with [_round] given holds where
    [round] returns (it does on a zero). *)
Variable round : number → Z → number.

(** [usage_percent(used, total, _round=None)] *)
Definition usage_percent (used total : number) (_round : option Z)
    : outcome exn number :=
  let ret :=
    match bind (truediv used total) (λ q, mul q (PyInt 100)) with
    | Raise ZeroDivisionError =>
        Return (if isinstance_float used || isinstance_float total
                then PyFloat (S754_zero false) else PyInt 0)
    | other => other
    end in
  bind ret (λ ret,
    match _round with
    | Some ndigits => Return (round ret ndigits)
    | None => Return ret
    end).

End UsagePercent.


(** A stand-in for [round] in examples: it leaves the number alone. *)
Definition round_keep (x : number) (ndigits : Z) : number := x.

End Percent.

(** ** [memoize] *)

Module Memo.
Import Py.

Section Memoize.

(** [V]: the hashable values a call passes, equal when Python finds them
    equal as dictionary keys; [R]: results; [E]: exceptions. *)
Context {V R E : Type} `{Countable V}.

(** A call [fun( *args, **kwargs)]: the positional values, and the keyword
    arguments in the order of the call (their names are distinct). *)
Definition call : Type := list V * list (string * V).

(** The wrapped function. *)
Variable fun_ : list V → list (string * V) → outcome E R.

(** [sorted(kwargs.items())]: the names are distinct, so the order of the
    pairs is the order of their names. *)
Definition sorted (items : list (string * V)) : list (string * V) :=
  merge_sort (λ x y, String.le x.1 y.1) items.

(** [frozenset(items)] *)
Definition frozenset (items : list (string * V)) : gset (string * V) :=
  list_to_set items.

(** [key = (args, frozenset(sorted(kwargs.items())))] *)
Definition key_of (args : list V) (kwargs : list (string * V))
    : list V * gset (string * V) :=
  (args, frozenset (sorted kwargs)).

(** The state a decorated function owns: its [cache], and, to count them,
    the calls of [fun] made so far (what the test's [calls] list records).
    The lock is free between two calls and is held by nobody else in a
    sequential run, so it is left out. *)
Record memo : Type := Memo {
  cache : gmap (list V * gset (string * V)) R;
  calls : list call
}.

(** [memoize(fun)]: an empty cache. *)
Definition memoize : memo := Memo ∅ [].

(** [wrapper( *args, **kwargs)] *)
Definition wrapper (args : list V) (kwargs : list (string * V)) (m : memo)
    : outcome E R * memo :=
  let key := key_of args kwargs in
  match cache m !! key with
  | Some ret => (Return ret, m)
  | None =>
      match fun_ args kwargs with
      | Return ret =>
          (Return ret, Memo (<[key := ret]> (cache m)) (calls m ++ [(args, kwargs)]))
      | Raise e =>
          (Raise e, Memo (cache m) (calls m ++ [(args, kwargs)]))
      end
  end.

(** [wrapper.cache_clear()] *)
Definition cache_clear (m : memo) : memo := Memo ∅ (calls m).

(** A run of calls of the wrapper, one after the other. *)
Definition run (cs : list call) (m : memo) : memo :=
  foldl (λ m c, (wrapper c.1 c.2 m).2) m cs.

(** How often [fun] was called with the signature [k]. *)
Definition invocations (k : list V * gset (string * V)) (m : memo) : nat :=
  length (filter (λ c, key_of c.1 c.2 = k) (calls m)).

End Memoize.

(** The function of the test: [foo( *args, **kwargs)] returns its
    arguments; here it fails when its first positional argument is
    negative. *)
Definition foo (args : list Z) (kwargs : list (string * Z))
    : outcome string (list Z * list (string * Z)) :=
  match args with
  | x :: _ => if x <? 0 then Raise "negative" else Return (args, kwargs)
  | [] => Return (args, kwargs)
  end.

End Memo.

(** ** [sockfam_to_enum] and [socktype_to_enum] *)

Module Sock.
Import Py.

(** An [IntEnum] class: its name and its members, by name and value. *)
Record IntEnum : Type := {
  enum_name : string;
  members : list (string * Z)
}.

(** What the two functions return: the number itself, or a member of an
    [IntEnum] class. *)
Inductive value : Type :=
  | Int (n : Z)
  | Member (cls : string) (name : string) (n : Z).

Inductive exn : Type :=
  | ValueError
  | AttributeError.

(** The runtime the module is loaded in: whether it has the [enum] module
    ([sys.version_info >= (3, 4)]), and the [IntEnum] classes among the
    attributes of its [socket] module. *)
Record runtime : Type := {
  enum : bool;
  socket : gmap string IntEnum
}.

(** [socket.<name>] *)
Definition getattr_socket (rt : runtime) (name : string) : outcome exn IntEnum :=
  match socket rt !! name with
  | Some cls => Return cls
  | None => Raise AttributeError
  end.

(** The name of the member of [cls] whose value is [num]. *)
Definition member_of (cls : IntEnum) (num : Z) : option string :=
  (λ found, found.2.1) <$> list_find (λ member, member.2 = num) (members cls).

(** [cls(num)]: the member with that value, or [ValueError]. *)
Definition call_enum (cls : IntEnum) (num : Z) : outcome exn value :=
  match member_of cls num with
  | Some name => Return (Member (enum_name cls) name num)
  | None => Raise ValueError
  end.

(** [sockfam_to_enum(num)] *)
Definition sockfam_to_enum (rt : runtime) (num : Z) : value :=
  if negb (enum rt) then Int num
  else
    match bind (getattr_socket rt "AddressFamily") (λ cls, call_enum cls num) with
    | Return v => v
    | Raise (ValueError | AttributeError) => Int num
    end.

(** [socktype_to_enum(num)] *)
Definition socktype_to_enum (rt : runtime) (num : Z) : value :=
  if negb (enum rt) then Int num
  else
    match bind (getattr_socket rt "AddressType") (λ cls, call_enum cls num) with
    | Return v => v
    | Raise (ValueError | AttributeError) => Int num
    end.

(** The symbol the runtime has for an address family code, if it has one. *)
Definition family_symbol (rt : runtime) (num : Z) : option value :=
  if enum rt then
    cls ← socket rt !! "AddressFamily";
    name ← member_of cls num;
    Some (Member (enum_name cls) name num)
  else None.

(** The symbol the runtime has for a socket type code, if it has one: the
    socket types are the members of [socket.SocketKind]. *)
Definition type_symbol (rt : runtime) (num : Z) : option value :=
  if enum rt then
    cls ← socket rt !! "SocketKind";
    name ← member_of cls num;
    Some (Member (enum_name cls) name num)
  else None.

(** A runtime with [enum], as CPython 3.4 and later on Linux: its [socket]
    module has the classes [AddressFamily] and [SocketKind], and no
    attribute [AddressType]. *)
Definition cpython3 : runtime := {|
  enum := true;
  socket := {[
    "AddressFamily" :=
      {| enum_name := "AddressFamily";
         members := [("AF_UNIX", 1); ("AF_INET", 2); ("AF_INET6", 10)] |};
    "SocketKind" :=
      {| enum_name := "SocketKind";
         members := [("SOCK_STREAM", 1); ("SOCK_DGRAM", 2); ("SOCK_RAW", 3)] |}
  ]}
|}.

End Sock.

(** ** [conn_tmap] *)

Module Conn.

(** The constants of the [socket] module that [_common.py] reads.
    [AF_INET6] and [AF_UNIX] are read with [getattr(socket, ..., None)]:
    they are [None] on a build without them. *)
Record socket_module : Type := {
  AF_INET : Z;
  SOCK_STREAM : Z;
  SOCK_DGRAM : Z;
  AF_INET6 : option Z;
  AF_UNIX : option Z
}.

(** An entry: the list of families (each an [int] or [None]) and the list
    of socket types. *)
Definition entry : Type := list (option Z) * list Z.

(** [d.update(other)] *)
Definition update (d other : gmap string entry) : gmap string entry :=
  other ∪ d.

(** The dictionary literal the table starts as. *)
Definition conn_tmap_literal (socket : socket_module) : gmap string entry :=
  list_to_map [
    ("all", ([Some socket.(AF_INET); socket.(AF_INET6); socket.(AF_UNIX)],
             [socket.(SOCK_STREAM); socket.(SOCK_DGRAM)]));
    ("tcp", ([Some socket.(AF_INET); socket.(AF_INET6)], [socket.(SOCK_STREAM)]));
    ("tcp4", ([Some socket.(AF_INET)], [socket.(SOCK_STREAM)]));
    ("udp", ([Some socket.(AF_INET); socket.(AF_INET6)], [socket.(SOCK_DGRAM)]));
    ("udp4", ([Some socket.(AF_INET)], [socket.(SOCK_DGRAM)]));
    ("inet", ([Some socket.(AF_INET); socket.(AF_INET6)],
              [socket.(SOCK_STREAM); socket.(SOCK_DGRAM)]));
    ("inet4", ([Some socket.(AF_INET)], [socket.(SOCK_STREAM); socket.(SOCK_DGRAM)]));
    ("inet6", ([socket.(AF_INET6)], [socket.(SOCK_STREAM); socket.(SOCK_DGRAM)]))
  ].

(** The table once the module is loaded. *)
Definition conn_tmap (socket : socket_module) : gmap string entry :=
  let t := conn_tmap_literal socket in
  let t :=
    if socket.(AF_INET6) is Some _ then
      update t (list_to_map [
        ("tcp6", ([socket.(AF_INET6)], [socket.(SOCK_STREAM)]));
        ("udp6", ([socket.(AF_INET6)], [socket.(SOCK_DGRAM)]))
      ])
    else t in
  let t :=
    if socket.(AF_UNIX) is Some _ then
      update t (list_to_map [
        ("unix", ([socket.(AF_UNIX)], [socket.(SOCK_STREAM); socket.(SOCK_DGRAM)]))
      ])
    else t in
  t.

(** The entries of the loaded table, as one list. *)
Definition listing (socket : socket_module) : list (string * entry) :=
  [ ("all", ([Some socket.(AF_INET); socket.(AF_INET6); socket.(AF_UNIX)],
             [socket.(SOCK_STREAM); socket.(SOCK_DGRAM)]));
    ("tcp", ([Some socket.(AF_INET); socket.(AF_INET6)], [socket.(SOCK_STREAM)]));
    ("tcp4", ([Some socket.(AF_INET)], [socket.(SOCK_STREAM)]));
    ("udp", ([Some socket.(AF_INET); socket.(AF_INET6)], [socket.(SOCK_DGRAM)]));
    ("udp4", ([Some socket.(AF_INET)], [socket.(SOCK_DGRAM)]));
    ("inet", ([Some socket.(AF_INET); socket.(AF_INET6)],
              [socket.(SOCK_STREAM); socket.(SOCK_DGRAM)]));
    ("inet4", ([Some socket.(AF_INET)], [socket.(SOCK_STREAM); socket.(SOCK_DGRAM)]));
    ("inet6", ([socket.(AF_INET6)], [socket.(SOCK_STREAM); socket.(SOCK_DGRAM)])) ]
  ++ (if socket.(AF_INET6) is Some _ then
        [ ("tcp6", ([socket.(AF_INET6)], [socket.(SOCK_STREAM)]));
          ("udp6", ([socket.(AF_INET6)], [socket.(SOCK_DGRAM)])) ]
      else [])
  ++ (if socket.(AF_UNIX) is Some _ then
        [ ("unix", ([socket.(AF_UNIX)], [socket.(SOCK_STREAM); socket.(SOCK_DGRAM)])) ]
      else []).

(** The constants of a Linux build without IPv6. *)
Definition linux_no_ipv6 : socket_module := {|
  AF_INET := 2; SOCK_STREAM := 1; SOCK_DGRAM := 2;
  AF_INET6 := None; AF_UNIX := Some 1
|}.

End Conn.

(** ** The error taxonomy *)

Module Errors.

(** The fields an error is constructed with. *)
Record error : Type := {
  pid : Z;
  name : option string;
  ppid : option Z;
  msg : option string
}.

(** Modelled from the spec: the rendering of an error, which
    [psutil/__init__.py] (not among the sources) implements.  The rendering
    is ["<Kind> <default-phrase> (pid=<pid>[, name='<name>'][, ppid=<ppid>])"],
    or ["<Kind> <message>"] when a message was given at construction. *)
Definition render (kind phrase : string) (e : error) : string :=
  match msg e with
  | Some m => kind +:+ " " +:+ m
  | None =>
      kind +:+ " " +:+ phrase +:+ " (pid=" +:+ pretty (pid e)
      +:+ from_option (λ n, ", name='" +:+ n +:+ "'") "" (name e)
      +:+ from_option (λ p, ", ppid=" +:+ pretty p) "" (ppid e)
      +:+ ")"
  end.

(** Modelled from the spec: the kind [NotFound] and its default phrase
    (section 8 of the specification). *)
Definition render_NotFound (e : error) : string :=
  render "NotFound" "process no longer exists" e.

(** [NotFound(pid, name=None, msg=None)] *)
Definition NotFound (pid : Z) (name msg : option string) : error :=
  {| pid := pid; name := name; ppid := None; msg := msg |}.

End Errors.

(** ** Process identity *)

Module Identity.

Section Handles.

(** [T]: creation times, compared exactly. *)
Context {T : Type} `{EqDecision T}.

(** The hash of an identity tuple. *)
Variable hash_tuple : Z * T → Z.

(** A process handle: its identity [(pid, create_time)]. *)
Record Process : Type := { ident : Z * T }.

(** The values a handle may be compared with. *)
Inductive object : Type :=
  | Handle (p : Process)
  | Str (s : string)
  | Num (n : Z)
  | NoneObj.

(** Modelled from the spec: equality of a handle and another value, which
    [psutil/__init__.py] (not among the sources) implements.  Two handles
    are equal iff both components of their identities match; a value of
    another type is not equal. *)
Definition eq (p : Process) (other : object) : bool :=
  match other with
  | Handle q => bool_decide (ident p = ident q)
  | _ => false
  end.

(** Modelled from the spec: the hash of a handle is derived from its
    identity tuple. *)
Definition hash (p : Process) : Z := hash_tuple (ident p).

(** Modelled from the spec: handles as set members. A handle is already in
    a set when the set has a member with the same hash that is equal to
    it. *)
Definition set_add (s : list Process) (p : Process) : list Process :=
  if existsb (λ q, (hash q =? hash p) && eq q (Handle p)) s then s
  else s ++ [p].

Definition set_of (ps : list Process) : list Process :=
  foldl set_add [] ps.

End Handles.

End Identity.

(** ** The platform constants *)

Module Platform.

(** [s.startswith(p)] *)
Definition startswith (s p : string) : bool := String.prefix p s.

Section Constants.

(** [os.name] and [sys.platform]. *)
Variables os_name sys_platform : string.

Definition POSIX : bool := String.eqb os_name "posix".
Definition WINDOWS : bool := String.eqb os_name "nt".
Definition LINUX : bool := startswith sys_platform "linux".
Definition OSX : bool := startswith sys_platform "darwin".
Definition FREEBSD : bool := startswith sys_platform "freebsd".
Definition OPENBSD : bool := startswith sys_platform "openbsd".
Definition NETBSD : bool := startswith sys_platform "netbsd".
Definition BSD : bool := FREEBSD || OPENBSD || NETBSD.
Definition SUNOS : bool :=
  startswith sys_platform "sunos" || startswith sys_platform "solaris".

End Constants.

(** How many of the flags are set. *)
Definition count_set (flags : list bool) : nat :=
  length (filter (λ b, b = true) flags).

End Platform.

(** ** [isfile_strict] and [path_exists_strict] *)

Module Files.
Import Py.

(** What [os.stat] raises: an [OSError] with its [errno], or something
    else (a [TypeError] for a path of the wrong type, ...). *)
Inductive exn : Type :=
  | OSError (errno : Z)
  | OtherError (name : string).

(** The result of [os.stat]: its [st_mode]. *)
Record stat_result : Type := { st_mode : Z }.

(** The two constants read from the [errno] module. *)
Record errno_module : Type := {
  EPERM : Z;
  EACCES : Z
}.

(** [stat.S_IFMT(mode)], [stat.S_IFREG] and [stat.S_ISREG(mode)]. *)
Definition S_IFMT (mode : Z) : Z := Z.land mode 61440.
Definition S_IFREG : Z := 32768.
Definition S_ISREG (mode : Z) : bool := S_IFMT mode =? S_IFREG.

Section Strict.

Variable errno : errno_module.

(** [os.stat] on the file system the call runs on. *)
Variable os_stat : string → outcome exn stat_result.

(** [err.errno in (errno.EPERM, errno.EACCES)] *)
Definition denied (e : Z) : bool :=
  (e =? errno.(EPERM)) || (e =? errno.(EACCES)).

(** [isfile_strict(path)] *)
Definition isfile_strict (path : string) : outcome exn bool :=
  match os_stat path with
  | Raise (OSError e) =>
      if denied e then Raise (OSError e) else Return false
  | Raise other => Raise other
  | Return st => Return (S_ISREG (st_mode st))
  end.

(** [path_exists_strict(path)] *)
Definition path_exists_strict (path : string) : outcome exn bool :=
  match os_stat path with
  | Raise (OSError e) =>
      if denied e then Raise (OSError e) else Return false
  | Raise other => Raise other
  | Return _ => Return true
  end.

End Strict.

(** The constants of a POSIX [errno] module. *)
Definition posix_errno : errno_module := {| EPERM := 1; EACCES := 13 |}.

(** A small file system: a regular file, a directory, a path that may not
    be read, and nothing else. *)
Definition sample_stat (path : string) : outcome exn stat_result :=
  if String.eqb path "/etc/hosts" then Return {| st_mode := 33188 |}
  else if String.eqb path "/etc" then Return {| st_mode := 16877 |}
  else if String.eqb path "/root/secret" then Raise (OSError 13)
  else Raise (OSError 2).

End Files.

(** ** [supports_ipv6] *)

Module Ipv6.
Import Py.

(** What the socket calls raise: [socket.error], its subclass
    [socket.gaierror], or something else. *)
Inductive exn : Type :=
  | SocketError
  | GaiError
  | OtherError (name : string).

(** [isinstance(e, socket.error)] *)
Definition is_socket_error (e : exn) : bool :=
  match e with
  | SocketError | GaiError => true
  | OtherError _ => false
  end.

(** The [socket] module as [supports_ipv6] sees it: [socket.has_ipv6],
    [hasattr(socket, "AF_INET6")], what
    [socket.socket(AF_INET6, SOCK_STREAM)] does and what
    [sock.bind(("::1", 0))] does. *)
Record socket_module : Type := {
  has_ipv6 : bool;
  has_AF_INET6 : bool;
  socket : outcome exn unit;
  bind : outcome exn unit
}.

(** The sockets the process has opened and closed so far. *)
Record sockets : Type := Sockets {
  opened : nat;
  closed : nat
}.

(** [except socket.error: return False] *)
Definition on_error (e : exn) : outcome exn bool :=
  if is_socket_error e then Return false else Raise e.

(** [supports_ipv6()] *)
Definition supports_ipv6 (s : socket_module) (st : sockets)
    : outcome exn bool * sockets :=
  if negb s.(has_ipv6) || negb s.(has_AF_INET6) then (Return false, st)
  else
    match s.(socket) with
    | Raise e => (on_error e, st)
    | Return _ =>
        let st := Sockets (S (opened st)) (closed st) in
        match s.(bind) with
        | Return _ =>
            let st := Sockets (opened st) (S (closed st)) in
            (Return true, st)
        | Raise e =>
            let st := Sockets (opened st) (S (closed st)) in
            (on_error e, st)
        end
    end.

End Ipv6.

(** ** Runs of a memoized function with [cache_clear] *)

Module MemoOps.
Import Py Memo.

Section Ops.

Context {V R E : Type} `{Countable V}.
Variable fun_ : list V → list (string * V) → outcome E R.

(** What a user does with a decorated function. *)
Inductive op : Type :=
  | Call (args : list V) (kwargs : list (string * V))
  | CacheClear.

Definition step (m : memo (V:=V) (R:=R)) (o : op) : memo :=
  match o with
  | Call args kwargs => (wrapper fun_ args kwargs m).2
  | CacheClear => cache_clear m
  end.

(** The state after a sequence of uses. *)
Definition exec (ops : list op) (m : memo (V:=V) (R:=R)) : memo :=
  foldl step m ops.

(** Every cached value is what [fun] returned for a call with that
    signature. *)
Definition sound (m : memo (V:=V) (R:=R)) : Prop :=
  ∀ k r, cache m !! k = Some r →
    ∃ c, c ∈ calls m ∧ key_of c.1 c.2 = k ∧ fun_ c.1 c.2 = Return r.

(** [fun] gives the same outcome to calls with the same signature. *)
Definition respects_signature : Prop :=
  ∀ args kwargs args' kwargs',
    key_of args kwargs = key_of args' kwargs' →
    fun_ args kwargs = fun_ args' kwargs'.

End Ops.

(** The sum of the positional arguments; it fails on an empty call. *)
Definition total (args : list Z) (kwargs : list (string * Z))
    : outcome string Z :=
  match args with
  | [] => Raise "no arguments"
  | _ => Return (foldr Z.add 0 args)
  end.

(** The number of arguments of a call; it always returns. *)
Definition arity (args : list Z) (kwargs : list (string * Z))
    : outcome string nat :=
  Return (length args + length kwargs)%nat.

End MemoOps.

(** ** ASCII text *)

Module Text.

(** [c] is an ASCII character: its code is below 128. *)
Definition ascii_char (c : ascii) : bool := (nat_of_ascii c <? 128)%nat.

(** All the characters of [s] are ASCII. *)
Fixpoint is_ascii (s : string) : bool :=
  match s with
  | EmptyString => true
  | String c s' => ascii_char c && is_ascii s'
  end.

End Text.

(** * Properties *)

(** ** The environment block parser *)

Module EnvironFacts.
Import PyStr Environ.

(** *** Strings as concatenations *)

Lemma app_String a s t : String a s +:+ t = String a (s +:+ t).
Proof. reflexivity. Qed.

Lemma app_empty_l t : "" +:+ t = t.
Proof. reflexivity. Qed.

Lemma app_empty_r s : s +:+ "" = s.
Proof. induction s as [|a s IH]; [done|]. by rewrite app_String, IH. Qed.

Lemma app_assoc_str s t u : (s +:+ t) +:+ u = s +:+ t +:+ u.
Proof. induction s as [|a s IH]; [done|]. by rewrite !app_String, IH. Qed.

Lemma length_app_str s t :
  String.length (s +:+ t) = (String.length s + String.length t)%nat.
Proof. induction s as [|a s IH]; [done|]. rewrite app_String. simpl. by rewrite IH. Qed.

Lemma len_app s t : len (s +:+ t) = len s + len t.
Proof. unfold len. rewrite length_app_str. lia. Qed.

Lemma len_nonneg s : 0 ≤ len s.
Proof. unfold len. lia. Qed.

Lemma skip_app s t : skip (String.length s) (s +:+ t) = t.
Proof. induction s as [|a s IH]; [done|]. rewrite app_String. simpl. apply IH. Qed.

Lemma prefix_app s t : prefix (String.length s) (s +:+ t) = s.
Proof. induction s as [|a s IH]; [done|]. rewrite app_String. simpl. by rewrite IH. Qed.

Lemma adjust_inside n i : 0 ≤ i ≤ n → adjust n i = i.
Proof. intros ?. unfold adjust. destruct (Z.ltb_spec i 0); lia. Qed.

(** The slice that covers the middle part of a three-part string. *)
Lemma slice_mid a b c :
  slice (a +:+ b +:+ c) (len a) (len a + len b) = b.
Proof.
  unfold slice. pose proof (len_nonneg a). pose proof (len_nonneg b).
  pose proof (len_nonneg c).
  rewrite !adjust_inside by (rewrite !len_app; lia).
  replace (Z.to_nat (len a + len b - len a)) with (String.length b)
    by (unfold len; lia).
  replace (Z.to_nat (len a)) with (String.length a) by (unfold len; lia).
  by rewrite skip_app, prefix_app.
Qed.

Lemma find_mid a b c ch :
  find (a +:+ b +:+ c) ch (len a) (len a + len b) =
  match index_of ch b with Some i => len a + Z.of_nat i | None => -1 end.
Proof.
  unfold find. rewrite slice_mid.
  pose proof (len_nonneg a). pose proof (len_nonneg b).
  pose proof (len_nonneg c).
  by rewrite adjust_inside by (rewrite !len_app; lia).
Qed.

Lemma find_from_tail a b ch :
  find_from (a +:+ b) ch (len a) =
  match index_of ch b with Some i => len a + Z.of_nat i | None => -1 end.
Proof.
  unfold find_from. rewrite len_app.
  rewrite <- (app_empty_r b) at 1. apply find_mid.
Qed.

(** *** The first occurrence of a character *)

Lemma index_of_split c s i :
  index_of c s = Some i →
  ∃ a b, s = a +:+ String c b ∧ String.length a = i ∧ index_of c a = None.
Proof.
  revert i. induction s as [|x s IH]; intros i; simpl; [done|].
  destruct (Ascii.eqb_spec x c) as [->|Hne].
  - intros [= <-]. by exists "", s.
  - destruct (index_of c s) as [j|] eqn:Hj; [|done].
    intros [= <-]. destruct (IH j eq_refl) as (a & b & -> & <- & Ha).
    exists (String x a), b. repeat split; simpl.
    destruct (Ascii.eqb_spec x c); [done|]. by rewrite Ha.
Qed.

(** *** The two cuts, by the first occurrence *)

Lemma split_nul_none s : index_of NUL s = None → fst (split_nul s) = [].
Proof.
  induction s as [|x s IH]; simpl; [done|].
  destruct (Ascii.eqb x NUL); [done|].
  destruct (index_of NUL s); [done|]. intros _.
  destruct (split_nul s) as [es t]. simpl in IH. by rewrite IH.
Qed.

Lemma split_nul_first e rest :
  index_of NUL e = None →
  fst (split_nul (e +:+ String NUL rest)) = e :: fst (split_nul rest).
Proof.
  induction e as [|x e IH]; simpl.
  - intros _. change (Ascii.eqb NUL NUL) with true.
    by destruct (split_nul rest).
  - destruct (Ascii.eqb x NUL) eqn:Hx; [done|].
    destruct (index_of NUL e); [done|]. intros _.
    destruct (split_nul (e +:+ String NUL rest)) as [es t].
    simpl in IH. by rewrite IH.
Qed.

Lemma split_eq_none e : index_of EQUALS e = None → split_eq e = None.
Proof.
  induction e as [|x e IH]; simpl; [done|].
  destruct (Ascii.eqb x EQUALS); [done|].
  destruct (index_of EQUALS e); [done|]. intros _. by rewrite IH.
Qed.

Lemma split_eq_first k v :
  index_of EQUALS k = None → split_eq (k +:+ String EQUALS v) = Some (k, v).
Proof.
  induction k as [|x k IH]; simpl.
  - intros _. by change (Ascii.eqb EQUALS EQUALS) with true.
  - destruct (Ascii.eqb x EQUALS) eqn:Hx; [done|].
    destruct (index_of EQUALS k); [done|]. intros _. by rewrite IH.
Qed.

(** *** One round of the loop *)

(** What one round stores for the entry [e] that sits between [pre] and
    [tail]. *)
Lemma round_store (W : bool) pre e tail (ret : gmap string string) :
  let data := pre +:+ e +:+ tail in
  let pos := len pre in
  let next_pos := len pre + len e in
  let equal_pos := find data EQUALS pos next_pos in
  (if equal_pos >? pos then
     <[(if W then upper (slice data pos equal_pos)
        else slice data pos equal_pos)
       := slice data (equal_pos + 1) next_pos]> ret
   else ret)
  = store_all (prod_map (norm_key W) id <$> option_list (assignment e)) ret.
Proof.
  intros data pos next_pos equal_pos. subst equal_pos next_pos pos data.
  rewrite find_mid. unfold assignment.
  destruct (index_of EQUALS e) as [j|] eqn:Hj.
  - destruct (index_of_split _ _ _ Hj) as (k & v & -> & <- & Hk).
    rewrite split_eq_first by done.
    destruct k as [|x k'].
    + simpl. by rewrite Z.add_0_r, Z.gtb_ltb, Z.ltb_irrefl.
    + set (k := String x k') in *.
      assert (0 < Z.of_nat (String.length k)) by (subst k; simpl; lia).
      replace (len pre + Z.of_nat (String.length k) >? len pre) with true
        by (symmetry; apply Z.gtb_lt; lia).
      change (Z.of_nat (String.length k)) with (len k).
      rewrite app_assoc_str, slice_mid.
      replace (pre +:+ k +:+ String EQUALS v +:+ tail)
        with ((pre +:+ k +:+ String EQUALS "") +:+ v +:+ tail)
        by (by rewrite !app_assoc_str).
      replace (len pre + len k + 1) with (len (pre +:+ k +:+ String EQUALS ""))
        by (rewrite !len_app; unfold len; simpl; lia).
      replace (len pre + len (k +:+ String EQUALS v))
        with (len (pre +:+ k +:+ String EQUALS "") + len v)
        by (rewrite !len_app; unfold len; simpl; lia).
      rewrite slice_mid. subst k. by destruct W.
  - rewrite split_eq_none by done.
    replace (-1 >? len pre) with false; [done|].
    symmetry. rewrite Z.gtb_ltb. apply Z.ltb_ge. pose proof (len_nonneg pre). lia.
Qed.

Lemma store_all_app kvs kvs' (ret : gmap string string) :
  store_all (kvs ++ kvs') ret = store_all kvs' (store_all kvs ret).
Proof. unfold store_all. by rewrite foldl_app. Qed.

(** The loop, started at the end of [pre], stores the assignments of the
    complete entries of [rest]; it ends as soon as the fuel exceeds the
    length of [rest]. *)
Lemma parse_loop_spec W fuel : ∀ pre rest ret,
  (String.length rest < fuel)%nat →
  parse_loop W fuel (pre +:+ rest) (len pre) ret
  = Some (store_all
            (prod_map (norm_key W) id <$>
               omap assignment (until_empty (fst (split_nul rest)))) ret).
Proof.
  induction fuel as [|fuel IH]; intros pre rest ret Hfuel; [lia|].
  cbn [parse_loop]. rewrite find_from_tail.
  destruct (index_of NUL rest) as [i|] eqn:Hi.
  - destruct (index_of_split _ _ _ Hi) as (e & rest' & -> & <- & He).
    rewrite split_nul_first by done.
    destruct e as [|x e'].
    { simpl. by rewrite Z.add_0_r, Z.leb_refl. }
    set (e := String x e') in *.
    assert (0 < len e) by (subst e; unfold len; simpl; lia).
    change (Z.of_nat (String.length e)) with (len e).
    replace (len pre + len e <=? len pre) with false
      by (symmetry; apply Z.leb_gt; lia).
    rewrite (round_store W pre e (String NUL rest') ret).
    replace (pre +:+ e +:+ String NUL rest')
      with ((pre +:+ e +:+ nul) +:+ rest')
      by (by rewrite !app_assoc_str).
    replace (len pre + len e + 1) with (len (pre +:+ e +:+ nul))
      by (rewrite !len_app; unfold len; simpl; lia).
    rewrite IH.
    + f_equal. replace (until_empty (e :: (split_nul rest').1))
        with (e :: until_empty (split_nul rest').1) by done.
      cbn [omap list_omap]. rewrite <- store_all_app, <- fmap_app.
      by destruct (assignment e).
    + rewrite length_app_str in Hfuel. simpl in Hfuel. lia.
  - rewrite split_nul_none by done. simpl.
    replace (-1 <=? len pre) with true; [done|].
    symmetry. apply Z.leb_le. pose proof (len_nonneg pre). lia.
Qed.

(** [len(data) + 1] rounds are enough: the parser returns, and it returns
    the assignments of the complete entries. *)
Lemma parse_loop_complete W data :
  parse_environ_block W data = Some (environ_of W data).
Proof.
  unfold parse_environ_block, environ_of, assignments, complete_entries.
  apply (parse_loop_spec W (S (String.length data)) "" data ∅). lia.
Qed.

(** A map built by storing assignments in order holds, for every key, the
    value of the last assignment to it. *)
Lemma store_all_lookup kvs (ret : gmap string string) k :
  store_all kvs ret !! k = from_option Some (ret !! k) (last_value k kvs).
Proof.
  revert ret. induction kvs as [|[k' v] kvs IH]; intros ret; [done|].
  change (store_all ((k', v) :: kvs) ret)
    with (store_all kvs (<[k' := v]> ret)).
  rewrite IH. simpl. destruct (last_value k kvs); [done|]. simpl.
  destruct (decide (k' = k)) as [->|]; simpl.
  - by rewrite lookup_insert_eq.
  - by rewrite lookup_insert_ne.
Qed.

Lemma store_all_union kvs (ret : gmap string string) :
  store_all kvs ret = store_all kvs ∅ ∪ ret.
Proof.
  apply map_eq. intros k. rewrite lookup_union, !store_all_lookup.
  rewrite lookup_empty. destruct (last_value k kvs); simpl.
  - by destruct (ret !! k).
  - by rewrite (left_id None _).
Qed.

(** *** Entries of a concatenation *)

Lemma split_nul_terminated s : fst (split_nul (s +:+ nul)) ≠ [].
Proof.
  induction s as [|x s IH]; simpl.
  - change (Ascii.eqb NUL NUL) with true. done.
  - destruct (split_nul (s +:+ nul)) as [es t]. simpl in IH.
    destruct (Ascii.eqb x NUL); [done|]. by destruct es.
Qed.

Lemma split_nul_app s t :
  fst (split_nul (s +:+ nul +:+ t))
  = fst (split_nul (s +:+ nul)) ++ fst (split_nul t).
Proof.
  induction s as [|x s IH]; simpl.
  - change ("" +:+ t) with t. by destruct (split_nul t).
  - pose proof (split_nul_terminated s) as Hne.
    destruct (split_nul (s +:+ nul +:+ t)) as [es u].
    destruct (split_nul (s +:+ nul)) as [es' u']. simpl in *. subst es.
    destruct (Ascii.eqb x NUL); [done|]. by destruct es'.
Qed.

Lemma until_empty_stop es es' :
  until_empty (es ++ "" :: es') = until_empty es.
Proof.
  induction es as [|e es IH]; [done|].
  destruct e; [done|]. simpl. by rewrite IH.
Qed.

Lemma complete_entries_double pre tail :
  complete_entries (pre +:+ nul +:+ nul +:+ tail) = complete_entries (pre +:+ nul).
Proof.
  unfold complete_entries. rewrite split_nul_app.
  change (nul +:+ tail) with (String NUL tail). simpl.
  change (Ascii.eqb NUL NUL) with true.
  destruct (split_nul tail) as [es t]. simpl. apply until_empty_stop.
Qed.

Lemma complete_entries_start tail : complete_entries (nul +:+ tail) = [].
Proof.
  unfold complete_entries. change (nul +:+ tail) with (String NUL tail).
  simpl. change (Ascii.eqb NUL NUL) with true. by destruct (split_nul tail).
Qed.

Lemma complete_entries_truncated pre t :
  index_of NUL t = None →
  complete_entries (pre +:+ nul +:+ t) = complete_entries (pre +:+ nul).
Proof.
  intros Ht. unfold complete_entries.
  by rewrite split_nul_app, (split_nul_none t Ht), app_nil_r.
Qed.

Lemma complete_entries_first e rest :
  e ≠ "" → index_of NUL e = None →
  complete_entries (e +:+ nul +:+ rest) = e :: complete_entries rest.
Proof.
  intros He Hnul. unfold complete_entries.
  change (nul +:+ rest) with (String NUL rest).
  rewrite split_nul_first by done. by destruct e.
Qed.

(** *** The claims about the parser *)

Lemma assignment_none e : index_of EQUALS e = None → assignment e = None.
Proof. intros He. unfold assignment. by rewrite split_eq_none. Qed.

Lemma assignment_empty_key v : assignment (String EQUALS v) = None.
Proof. reflexivity. Qed.

Lemma assignment_some k v :
  k ≠ "" → index_of EQUALS k = None →
  assignment (k +:+ String EQUALS v) = Some (k, v).
Proof.
  intros Hk He. unfold assignment. rewrite split_eq_first by done.
  by destruct k.
Qed.

Lemma environ_of_first W e rest :
  e ≠ "" → index_of NUL e = None →
  environ_of W (e +:+ nul +:+ rest)
  = environ_of W rest
    ∪ store_all (prod_map (norm_key W) id <$> option_list (assignment e)) ∅.
Proof.
  intros He Hnul. unfold environ_of, assignments.
  rewrite complete_entries_first by done. cbn [omap list_omap].
  rewrite <- store_all_union, <- store_all_app, <- fmap_app.
  by destruct (assignment e).
Qed.

(** C1, as it is stated, fails on a platform whose [WINDOWS] constant is
    true: there [parse_environ_block("a=1\0")] is [{"A": "1"}], not
    [{"a": "1"}], because the keys go through [upper]. *)
Lemma parse_environ_block_windows_uppercases :
  parse_environ_block true ("a=1" +:+ nul) = Some {[ "A" := "1" ]}
  ∧ parse_environ_block true ("a=1" +:+ nul) ≠ Some {[ "a" := "1" ]}.
Proof.
  assert (parse_environ_block true ("a=1" +:+ nul) = Some {[ "A" := "1" ]})
    as Heq by (vm_compute; reflexivity).
  split; [exact Heq|]. rewrite Heq. intros H.
  apply (f_equal (λ r : option (gmap string string), r ≫= (.!! "a"))) in H.
  vm_compute in H. discriminate.
Qed.

(** C1 (amended): for every input block, on every platform,
    [parse_environ_block] returns (it never fails) exactly the mapping of
    the complete [KEY=VALUE] entries that precede the first double
    terminator or a terminator at the start of the block, with each key in
    the platform's spelling (upper-cased where [WINDOWS] is true, unchanged
    elsewhere).  An entry without [=] contributes nothing, an entry whose
    first [=] is at position 0 contributes nothing, any other entry
    contributes the text before its first [=] as key and the text after it
    as value; everything after a double terminator is ignored; a final
    entry without terminator is dropped.  With [k = norm_key W], the six
    sample blocks parse to [{k("a"): "1"}] and [{k("a"): "1", k("b"): "2"}]. *)
Theorem parse_environ_block_entries (W : bool) :
  (∀ data, parse_environ_block W data = Some (environ_of W data))
  ∧ (∀ e, index_of EQUALS e = None → assignment e = None)
  ∧ (∀ v, assignment (String EQUALS v) = None)
  ∧ (∀ k v, k ≠ "" → index_of EQUALS k = None →
       assignment (k +:+ String EQUALS v) = Some (k, v))
  ∧ (∀ e rest, e ≠ "" → index_of NUL e = None →
       environ_of W (e +:+ nul +:+ rest)
       = environ_of W rest
         ∪ store_all (prod_map (norm_key W) id <$> option_list (assignment e)) ∅)
  ∧ (∀ tail, parse_environ_block W (nul +:+ tail) = Some ∅)
  ∧ (∀ pre tail,
       parse_environ_block W (pre +:+ nul +:+ nul +:+ tail)
       = parse_environ_block W (pre +:+ nul))
  ∧ (∀ pre t, index_of NUL t = None →
       parse_environ_block W (pre +:+ nul +:+ t)
       = parse_environ_block W (pre +:+ nul))
  ∧ (∀ t, index_of NUL t = None → parse_environ_block W t = Some ∅)
  ∧ parse_environ_block W ("a=1" +:+ nul)
    = Some {[ norm_key W "a" := "1" ]}
  ∧ parse_environ_block W ("a=1" +:+ nul +:+ "b=2" +:+ nul +:+ nul)
    = Some {[ norm_key W "a" := "1"; norm_key W "b" := "2" ]}
  ∧ parse_environ_block W
      ("a=1" +:+ nul +:+ "b=2" +:+ nul +:+ nul +:+ "c=3" +:+ nul)
    = Some {[ norm_key W "a" := "1"; norm_key W "b" := "2" ]}
  ∧ parse_environ_block W ("xxx" +:+ nul +:+ "a=1" +:+ nul)
    = Some {[ norm_key W "a" := "1" ]}
  ∧ parse_environ_block W ("a=1" +:+ nul +:+ "=b=2" +:+ nul)
    = Some {[ norm_key W "a" := "1" ]}
  ∧ parse_environ_block W ("a=1" +:+ nul +:+ "b=2")
    = Some {[ norm_key W "a" := "1" ]}.
Proof.
  split; [apply parse_loop_complete|].
  split; [apply assignment_none|].
  split; [apply assignment_empty_key|].
  split; [apply assignment_some|].
  split; [apply environ_of_first|].
  split.
  { intros tail. rewrite parse_loop_complete.
    unfold environ_of, assignments. by rewrite complete_entries_start. }
  split.
  { intros pre tail. rewrite !parse_loop_complete.
    unfold environ_of, assignments. by rewrite complete_entries_double. }
  split.
  { intros pre t Ht. rewrite !parse_loop_complete.
    unfold environ_of, assignments. by rewrite complete_entries_truncated. }
  split.
  { intros t Ht. rewrite parse_loop_complete.
    unfold environ_of, assignments, complete_entries.
    by rewrite split_nul_none. }
  destruct W; repeat split; vm_compute; reflexivity.
Qed.

(** C10, as it is stated, fails on a platform whose [WINDOWS] constant is
    true: there [parse_environ_block("a=1\0a=2\0")] is [{"A": "2"}], not
    [{"a": "2"}]. *)
Lemma parse_environ_block_windows_last_wins :
  parse_environ_block true ("a=1" +:+ nul +:+ "a=2" +:+ nul)
  = Some {[ "A" := "2" ]}
  ∧ parse_environ_block true ("a=1" +:+ nul +:+ "a=2" +:+ nul)
    ≠ Some {[ "a" := "2" ]}.
Proof.
  assert (parse_environ_block true ("a=1" +:+ nul +:+ "a=2" +:+ nul)
          = Some {[ "A" := "2" ]}) as Heq by (vm_compute; reflexivity).
  split; [exact Heq|]. rewrite Heq. intros H.
  apply (f_equal (λ r : option (gmap string string), r ≫= (.!! "a"))) in H.
  vm_compute in H. discriminate.
Qed.

Lemma last_value_snoc_eq k v kvs : last_value k (kvs ++ [(k, v)]) = Some v.
Proof.
  induction kvs as [|[k' v'] kvs IH]; simpl.
  - by rewrite decide_True.
  - by rewrite IH.
Qed.

Lemma last_value_snoc_ne k k' v kvs :
  k' ≠ k → last_value k (kvs ++ [(k', v)]) = last_value k kvs.
Proof.
  intros Hne. induction kvs as [|[k'' v''] kvs IH]; simpl.
  - by rewrite decide_False.
  - by rewrite IH.
Qed.

(** C10 (amended): when the block holds several complete [KEY=VALUE]
    entries whose keys are the same in the platform's spelling (upper-cased
    where [WINDOWS] is true), [parse_environ_block] keeps, under that
    spelling, the value of the last of them: the result maps every key to
    the value of the last assignment to it and has no other key.  With
    [k = norm_key W], [parse("a=1\0a=2\0") = {k("a"): "2"}]. *)
Theorem parse_environ_block_last_wins (W : bool) :
  (∀ data, ∃ ret,
     parse_environ_block W data = Some ret
     ∧ ∀ k, ret !! k = last_value k (assignments W data))
  ∧ (∀ k v kvs, last_value k (kvs ++ [(k, v)]) = Some v)
  ∧ (∀ k k' v kvs, k' ≠ k → last_value k (kvs ++ [(k', v)]) = last_value k kvs)
  ∧ (∀ k, last_value k [] = None)
  ∧ assignments W ("a=1" +:+ nul +:+ "a=2" +:+ nul)
    = [(norm_key W "a", "1"); (norm_key W "a", "2")]
  ∧ parse_environ_block W ("a=1" +:+ nul +:+ "a=2" +:+ nul)
    = Some {[ norm_key W "a" := "2" ]}.
Proof.
  split.
  { intros data. exists (environ_of W data).
    split; [apply parse_loop_complete|]. intros k.
    unfold environ_of. rewrite store_all_lookup, lookup_empty.
    by destruct (last_value k (assignments W data)). }
  split; [apply last_value_snoc_eq|].
  split; [apply last_value_snoc_ne|].
  split; [done|].
  destruct W; split; vm_compute; reflexivity.
Qed.

End EnvironFacts.

(** ** The percentage utility *)

Module PercentFacts.
Import Py Percent.



(** X5: an [int] [used] beyond the float range over a [float] [total],
    zero or not: the conversion's [OverflowError] leaves the function, with
    or without rounding. *)
Lemma usage_percent_overflow round n y _round :
  long_as_double n = Raise OverflowError →
  usage_percent round (PyInt n) (PyFloat y) _round = Raise OverflowError.
Proof.
  intros Hn. unfold usage_percent, truediv, float_div. simpl. by rewrite Hn.
Qed.




End PercentFacts.

(** ** The memoization primitive *)

Module MemoFacts.
Import Py Memo.

Section Wrapper.

Context {V R E : Type} `{Countable V}.
Variable fun_ : list V → list (string * V) → outcome E R.

Abbreviation signature := (list V * gset (string * V))%type.
Abbreviation wrapper := (wrapper fun_).
Abbreviation run := (run fun_).

Implicit Types args : list V.
Implicit Types kwargs : list (string * V).
Implicit Types m : memo (V:=V) (R:=R).
Implicit Types k : signature.
Implicit Types c : call (V:=V).
Implicit Types cs : list (call (V:=V)).

(** *** Signatures *)

Lemma key_of_items args kwargs :
  key_of args kwargs = (args, list_to_set kwargs).
Proof.
  unfold key_of, frozenset, sorted. f_equal.
  apply list_to_set_perm_L, merge_sort_Permutation.
Qed.

Lemma key_of_perm args kwargs kwargs' :
  kwargs ≡ₚ kwargs' → key_of args kwargs = key_of args kwargs'.
Proof. intros Hp. rewrite !key_of_items. f_equal. by apply list_to_set_perm_L. Qed.

(** *** One call *)

Lemma wrapper_hit args kwargs m r :
  cache m !! key_of args kwargs = Some r →
  wrapper args kwargs m = (Return r, m).
Proof. intros Hc. unfold Memo.wrapper. by rewrite Hc. Qed.

Lemma wrapper_miss args kwargs m :
  cache m !! key_of args kwargs = None →
  (wrapper args kwargs m).1 = fun_ args kwargs
  ∧ calls (wrapper args kwargs m).2 = calls m ++ [(args, kwargs)]
  ∧ cache (wrapper args kwargs m).2
    = match fun_ args kwargs with
      | Return r => <[key_of args kwargs := r]> (cache m)
      | Raise _ => cache m
      end.
Proof.
  intros Hc. unfold Memo.wrapper. rewrite Hc.
  by destruct (fun_ args kwargs).
Qed.

Lemma wrapper_cache_other args kwargs m k :
  key_of args kwargs ≠ k →
  cache (wrapper args kwargs m).2 !! k = cache m !! k.
Proof.
  intros Hk. unfold Memo.wrapper.
  destruct (cache m !! key_of args kwargs); [done|].
  destruct (fun_ args kwargs); simpl; [|done]. by rewrite lookup_insert_ne.
Qed.

Lemma wrapper_cache_keeps args kwargs m k r :
  cache m !! k = Some r → cache (wrapper args kwargs m).2 !! k = Some r.
Proof.
  intros Hk. destruct (decide (key_of args kwargs = k)) as [<-|Hne].
  - by rewrite (wrapper_hit _ _ _ _ Hk).
  - by rewrite wrapper_cache_other.
Qed.

Lemma invocations_snoc k (cache0 : gmap signature R) cs c :
  invocations k (Memo cache0 (cs ++ [c]))
  = (invocations k (Memo cache0 cs)
     + if decide (key_of c.1 c.2 = k) then 1 else 0)%nat.
Proof.
  unfold invocations. simpl. rewrite filter_app, length_app.
  rewrite filter_cons, filter_nil. by destruct (decide _).
Qed.

Lemma wrapper_invocations_other args kwargs m k :
  key_of args kwargs ≠ k →
  invocations k (wrapper args kwargs m).2 = invocations k m.
Proof.
  intros Hk. unfold Memo.wrapper. destruct m as [c cs]. simpl.
  destruct (c !! key_of args kwargs); [done|].
  destruct (fun_ args kwargs); simpl; rewrite invocations_snoc; simpl;
    rewrite decide_False by done; unfold invocations; simpl; lia.
Qed.

Lemma wrapper_invocations_hit args kwargs m k r :
  cache m !! key_of args kwargs = Some r →
  invocations k (wrapper args kwargs m).2 = invocations k m.
Proof. intros Hc. by rewrite (wrapper_hit _ _ _ _ Hc). Qed.

(** *** Runs of calls *)

Lemma run_cons c cs m :
  run (c :: cs) m = run cs (wrapper c.1 c.2 m).2.
Proof. reflexivity. Qed.

Lemma run_cache_keeps cs : ∀ m k r,
  cache m !! k = Some r → cache (run cs m) !! k = Some r.
Proof.
  induction cs as [|c cs IH]; intros m k r Hk; [done|].
  rewrite run_cons. by apply IH, wrapper_cache_keeps.
Qed.

Lemma run_invocations_cached cs : ∀ m k r,
  cache m !! k = Some r → invocations k (run cs m) = invocations k m.
Proof.
  induction cs as [|c cs IH]; intros m k r Hk; [done|].
  rewrite run_cons.
  rewrite (IH _ k r) by by apply wrapper_cache_keeps.
  destruct (decide (key_of c.1 c.2 = k)) as [<-|Hne].
  - by apply (wrapper_invocations_hit _ _ _ _ r).
  - by apply wrapper_invocations_other.
Qed.

Lemma run_invocations cs : ∀ m k,
  (∀ c, c ∈ cs → key_of c.1 c.2 = k → returns (fun_ c.1 c.2)) →
  cache m !! k = None →
  invocations k (run cs m)
  = (invocations k m
     + if bool_decide (k ∈ (λ c, key_of c.1 c.2) <$> cs) then 1 else 0)%nat.
Proof.
  induction cs as [|c cs IH]; intros m k Hret Hk.
  { change (run [] m) with m.
    rewrite bool_decide_eq_false_2 by (rewrite fmap_nil; apply not_elem_of_nil).
    lia. }
  rewrite run_cons. destruct (decide (key_of c.1 c.2 = k)) as [Heq|Hne].
  - rewrite bool_decide_eq_true_2 by (rewrite fmap_cons, <- Heq; left).
    destruct (Hret c) as [r Hr]; [left|done|].
    destruct (wrapper_miss c.1 c.2 m) as (_ & Hcalls & Hcache);
      [by rewrite Heq|].
    rewrite Hr in Hcache.
    rewrite (run_invocations_cached cs _ k r)
      by (by rewrite Hcache, Heq, lookup_insert_eq).
    destruct (wrapper c.1 c.2 m).2 as [c' cs'], m as [c0 cs0].
    simpl in Hcalls. subst cs'.
    rewrite invocations_snoc, decide_True by done. reflexivity.
  - rewrite IH.
    + rewrite wrapper_invocations_other by done. f_equal.
      rewrite fmap_cons. destruct (bool_decide_reflect
        (k ∈ (λ c0, key_of c0.1 c0.2) <$> cs)) as [Hin|Hnin].
      * rewrite bool_decide_eq_true_2; [done|by right].
      * rewrite bool_decide_eq_false_2; [done|].
        intros [?|?]%elem_of_cons; congruence.
    + intros c' Hc'. apply Hret. by right.
    + by rewrite wrapper_cache_other.
Qed.

Lemma key_of_eq args args' kwargs kwargs' :
  key_of args kwargs = key_of args' kwargs'
  ↔ args = args' ∧ ∀ item, item ∈ kwargs ↔ item ∈ kwargs'.
Proof.
  rewrite !key_of_items. split.
  - intros [= -> Hs]. split; [done|]. intros item.
    by rewrite <- !(elem_of_list_to_set (C:=gset (string * V))), Hs.
  - intros [-> Hs]. f_equal. apply set_eq. intros item.
    by rewrite !elem_of_list_to_set.
Qed.

(** *** The claims about the wrapper *)

(** C2 (amended): for every wrapped function (a function of its
    arguments), the signature of a call is its positional tuple and its set
    of keyword items, whatever the order of the keywords; over any run of
    calls on a fresh wrapper, the function is called exactly once for every
    signature that occurs (and not at all for the others), provided it
    returns for the calls with that signature; a later call with a cached
    signature returns the stored result and leaves the state alone; a call
    with another signature changes neither the cache entry nor the count of
    a signature; and after [cache_clear()] the next call, for any
    signature, calls the function again. *)
Theorem memoize_computes_once :
  (∀ args args' kwargs kwargs',
     key_of args kwargs = key_of args' kwargs'
     ↔ args = args' ∧ ∀ item, item ∈ kwargs ↔ item ∈ kwargs')
  ∧ (∀ args kwargs kwargs',
       kwargs ≡ₚ kwargs' → key_of args kwargs = key_of args kwargs')
  ∧ (∀ cs k,
       (∀ c, c ∈ cs → key_of c.1 c.2 = k → returns (fun_ c.1 c.2)) →
       invocations k (run cs memoize)
       = if bool_decide (k ∈ (λ c, key_of c.1 c.2) <$> cs) then 1%nat else 0%nat)
  ∧ (∀ m args kwargs r cs args' kwargs',
       cache m !! key_of args kwargs = None →
       fun_ args kwargs = Return r →
       key_of args' kwargs' = key_of args kwargs →
       (wrapper args kwargs m).1 = Return r
       ∧ wrapper args' kwargs' (run cs (wrapper args kwargs m).2)
         = (Return r, run cs (wrapper args kwargs m).2))
  ∧ (∀ m args kwargs k,
       key_of args kwargs ≠ k →
       cache (wrapper args kwargs m).2 !! k = cache m !! k
       ∧ invocations k (wrapper args kwargs m).2 = invocations k m)
  ∧ (∀ m args kwargs,
       (wrapper args kwargs (cache_clear m)).1 = fun_ args kwargs
       ∧ calls (wrapper args kwargs (cache_clear m)).2
         = calls m ++ [(args, kwargs)]).
Proof.
  split; [apply key_of_eq|].
  split; [apply key_of_perm|].
  split.
  { intros cs k Hret. by rewrite run_invocations. }
  split.
  { intros m args kwargs r cs args' kwargs' Hmiss Hr Hkey.
    destruct (wrapper_miss args kwargs m Hmiss) as (Hres & _ & Hcache).
    rewrite Hr in Hres, Hcache. split; [done|].
    apply wrapper_hit, run_cache_keeps.
    by rewrite Hcache, Hkey, lookup_insert_eq. }
  split.
  { intros m args kwargs k Hk.
    by rewrite wrapper_cache_other, wrapper_invocations_other. }
  intros m args kwargs.
  destruct (wrapper_miss args kwargs (cache_clear m)) as (Hres & Hcalls & _);
    [apply lookup_empty|]. done.
Qed.

(** C9: if the wrapped function raises on a signature that is not cached,
    the exception reaches the caller and the cache is as it was, with no
    entry for that signature; so the next call with the same signature
    calls the function again. *)
Theorem memoize_exception_not_cached m args args' kwargs kwargs' (e : E) :
  cache m !! key_of args kwargs = None →
  fun_ args kwargs = Raise e →
  key_of args' kwargs' = key_of args kwargs →
  (wrapper args kwargs m).1 = Raise e
  ∧ cache (wrapper args kwargs m).2 = cache m
  ∧ cache (wrapper args kwargs m).2 !! key_of args kwargs = None
  ∧ (wrapper args' kwargs' (wrapper args kwargs m).2).1 = fun_ args' kwargs'
  ∧ calls (wrapper args' kwargs' (wrapper args kwargs m).2).2
    = calls m ++ [(args, kwargs); (args', kwargs')].
Proof.
  intros Hmiss He Hkey.
  destruct (wrapper_miss args kwargs m Hmiss) as (Hres & Hcalls & Hcache).
  rewrite He in Hres, Hcache.
  assert (cache (wrapper args kwargs m).2 !! key_of args' kwargs' = None)
    as Hmiss' by (by rewrite Hcache, Hkey).
  destruct (wrapper_miss args' kwargs' _ Hmiss') as (Hres' & Hcalls' & _).
  repeat split; [done..| by rewrite Hcache | done |].
  by rewrite Hcalls', Hcalls, <- app_assoc.
Qed.

End Wrapper.

(** C2, as it is stated, fails for a function that raises: nothing is
    stored for a call that raises, so [foo(-1)], called twice on a fresh
    wrapper, calls [foo] twice. *)
Lemma memoize_raising_call_repeats :
  foo [-1] [] = Raise "negative"
  ∧ invocations (key_of [-1] [])
      (run foo [([-1], []); ([-1], [])] memoize) = 2%nat.
Proof. split; vm_compute; reflexivity. Qed.

(** The calls of the test: twice without arguments, twice with [1], twice
    with [1] and [bar=2]. *)
Lemma memoize_computes_once_witness :
  invocations (key_of [1] [("bar", 2)])
    (run foo [([], []); ([], []); ([1], []); ([1], []);
              ([1], [("bar", 2)]); ([1], [("bar", 2)])] memoize)
  = 1%nat.
Proof.
  rewrite (proj1 (proj2 (proj2 (memoize_computes_once foo)))).
  - vm_compute. reflexivity.
  - intros c Hc _.
    repeat (apply elem_of_cons in Hc as [->|Hc]; [by eexists|]).
    by apply elem_of_nil in Hc.
Defined.

(** A call that fails: [foo(-1)] on a fresh wrapper, twice. *)
Lemma memoize_exception_not_cached_witness :
  (wrapper foo [-1] [] memoize).1 = Raise "negative"
  ∧ cache (wrapper foo [-1] [] memoize).2 = cache (memoize (V:=Z) (R:=list Z * list (string * Z)))
  ∧ cache (wrapper foo [-1] [] memoize).2 !! key_of [-1] [] = None
  ∧ (wrapper foo [-1] [] (wrapper foo [-1] [] memoize).2).1 = foo [-1] []
  ∧ calls (wrapper foo [-1] [] (wrapper foo [-1] [] memoize).2).2
    = calls (memoize (V:=Z) (R:=list Z * list (string * Z))) ++ [([-1], []); ([-1], [])].
Proof.
  apply (memoize_exception_not_cached foo memoize [-1] [-1] [] [] "negative").
  - apply lookup_empty.
  - reflexivity.
  - reflexivity.
Defined.

End MemoFacts.

(** ** The numeric family and type normalizer *)

Module SockFacts.
Import Py Sock.

(** X1: [sockfam_to_enum] never fails: it gives the runtime's symbol for the
    code when there is one, and the number itself otherwise. *)
Lemma sockfam_to_enum_symbol rt num :
  sockfam_to_enum rt num = default (Int num) (family_symbol rt num).
Proof.
  unfold sockfam_to_enum, family_symbol, getattr_socket, call_enum.
  destruct (enum rt); simpl; [|done].
  destruct (socket rt !! "AddressFamily") as [cls|]; simpl; [|done].
  by destruct (member_of cls num).
Qed.

(** [socktype_to_enum] looks its class up under the name [AddressType]. In
    a runtime whose [socket] module has no such attribute it gives the
    number back, whatever the number. *)
Lemma socktype_to_enum_no_attribute rt num :
  socket rt !! "AddressType" = None → socktype_to_enum rt num = Int num.
Proof.
  intros Hno. unfold socktype_to_enum, getattr_socket. rewrite Hno.
  by destruct (enum rt).
Qed.

(** C6 fails for [socktype_to_enum]: in a runtime that knows the socket type
    code 1 as [SocketKind.SOCK_STREAM], [socktype_to_enum(1)] is the number
    1, not the symbol; [sockfam_to_enum(2)], in the same runtime, is the
    symbol [AddressFamily.AF_INET]. *)
Theorem socktype_to_enum_misses_symbol :
  type_symbol cpython3 1 = Some (Member "SocketKind" "SOCK_STREAM" 1)
  ∧ socktype_to_enum cpython3 1 = Int 1
  ∧ family_symbol cpython3 2 = Some (Member "AddressFamily" "AF_INET" 2)
  ∧ sockfam_to_enum cpython3 2 = Member "AddressFamily" "AF_INET" 2.
Proof. repeat split; vm_compute; reflexivity. Qed.

End SockFacts.

(** ** The connection-kind table *)

Module ConnFacts.
Import Conn.

Lemma conn_tmap_listing socket : conn_tmap socket = list_to_map (listing socket).
Proof.
  destruct socket as [inet stream dgram [inet6|] [unix|]]; reflexivity.
Qed.

Lemma conn_tmap_entry socket kind e :
  conn_tmap socket !! kind = Some e → (kind, e) ∈ listing socket.
Proof. rewrite conn_tmap_listing. apply elem_of_list_to_map_2. Qed.

(** C4: the table always has the keys [all], [tcp], [tcp4], [udp], [udp4],
    [inet], [inet4] and [inet6]; it has [tcp6] and [udp6] exactly when
    [AF_INET6] is there, and [unix] exactly when [AF_UNIX] is there; [tcp]
    resolves to the families [AF_INET, AF_INET6] with the type
    [SOCK_STREAM]; [unix] without [AF_UNIX], and [bogus] on any build, are
    not keys of the table. *)
Theorem conn_tmap_keys (socket : socket_module) :
  (∀ kind,
     kind ∈ ["all"; "tcp"; "tcp4"; "udp"; "udp4"; "inet"; "inet4"; "inet6"] →
     is_Some (conn_tmap socket !! kind))
  ∧ (is_Some (conn_tmap socket !! "tcp6") ↔ socket.(AF_INET6) ≠ None)
  ∧ (is_Some (conn_tmap socket !! "udp6") ↔ socket.(AF_INET6) ≠ None)
  ∧ (is_Some (conn_tmap socket !! "unix") ↔ socket.(AF_UNIX) ≠ None)
  ∧ conn_tmap socket !! "tcp"
    = Some ([Some socket.(AF_INET); socket.(AF_INET6)], [socket.(SOCK_STREAM)])
  ∧ (socket.(AF_UNIX) = None → conn_tmap socket !! "unix" = None)
  ∧ conn_tmap socket !! "bogus" = None.
Proof.
  destruct socket as [inet stream dgram inet6 unix]. simpl.
  split.
  { intros kind Hk.
    repeat (apply elem_of_cons in Hk as [->|Hk];
            [destruct inet6, unix; by eexists|]).
    by apply elem_of_nil in Hk. }
  split.
  { destruct inet6, unix; (split; [done | intros _; by eexists])
      || (split; [by intros [? [=]] | done]). }
  split.
  { destruct inet6, unix; (split; [done | intros _; by eexists])
      || (split; [by intros [? [=]] | done]). }
  split.
  { destruct inet6, unix; (split; [done | intros _; by eexists])
      || (split; [by intros [? [=]] | done]). }
  split; [by destruct inet6, unix|].
  split; [intros ->; by destruct inet6|].
  by destruct inet6, unix.
Qed.

(** C3, as it is stated, fails on a build without [AF_INET6]: the key
    [inet6] is in the table, with [None] as its only family, and [tcp] has
    [None] among its families. *)
Lemma conn_tmap_inet6_placeholder :
  conn_tmap linux_no_ipv6 !! "inet6" = Some ([None], [1; 2])
  ∧ conn_tmap linux_no_ipv6 !! "tcp" = Some ([Some 2; None], [1]).
Proof. split; reflexivity. Qed.

(** C3 (amended): when [AF_INET6] is missing the keys [tcp6] and [udp6] are
    not in the table, and when [AF_UNIX] is missing the key [unix] is not,
    so these keywords are unknown kinds; the entries [all], [tcp], [udp]
    and [inet] stay, and list the values of [AF_INET6] and [AF_UNIX]
    ([None] where the build lacks the family) next to [AF_INET]; every
    entry of the table other than [inet6] names a family that is there; and
    the only families an entry lists are [AF_INET] and the values of
    [AF_INET6] and [AF_UNIX]. *)
Theorem conn_tmap_unsupported_families (socket : socket_module) :
  (socket.(AF_INET6) = None →
     conn_tmap socket !! "tcp6" = None ∧ conn_tmap socket !! "udp6" = None)
  ∧ (socket.(AF_UNIX) = None → conn_tmap socket !! "unix" = None)
  ∧ (conn_tmap socket !! "all"
     = Some ([Some socket.(AF_INET); socket.(AF_INET6); socket.(AF_UNIX)],
             [socket.(SOCK_STREAM); socket.(SOCK_DGRAM)])
     ∧ conn_tmap socket !! "tcp"
       = Some ([Some socket.(AF_INET); socket.(AF_INET6)], [socket.(SOCK_STREAM)])
     ∧ conn_tmap socket !! "udp"
       = Some ([Some socket.(AF_INET); socket.(AF_INET6)], [socket.(SOCK_DGRAM)])
     ∧ conn_tmap socket !! "inet"
       = Some ([Some socket.(AF_INET); socket.(AF_INET6)],
               [socket.(SOCK_STREAM); socket.(SOCK_DGRAM)]))
  ∧ (∀ kind fams types,
       conn_tmap socket !! kind = Some (fams, types) → kind ≠ "inet6" →
       ∃ family, Some family ∈ fams)
  ∧ (∀ kind fams types family,
       conn_tmap socket !! kind = Some (fams, types) → family ∈ fams →
       family = Some socket.(AF_INET) ∨ family = socket.(AF_INET6)
       ∨ family = socket.(AF_UNIX)).
Proof.
  split.
  { destruct socket as [inet stream dgram inet6 unix]. simpl.
    intros ->. by destruct unix. }
  split.
  { destruct socket as [inet stream dgram inet6 unix]. simpl.
    intros ->. by destruct inet6. }
  split.
  { by destruct socket as [inet stream dgram [inet6|] [unix|]]. }
  split.
  - intros kind fams types Hk%conn_tmap_entry Hne.
    destruct socket as [inet stream dgram [inet6|] [unix|]];
      unfold listing in Hk; simpl in Hk;
      repeat (apply elem_of_cons in Hk as [[= -> -> ->]|Hk];
              [first [done | eexists; by (left + (right; left))]|]);
      by apply elem_of_nil in Hk.
  - intros kind fams types family Hk%conn_tmap_entry Hf.
    destruct socket as [inet stream dgram [inet6|] [unix|]];
      unfold listing in Hk; simpl in Hk; simpl;
      repeat (apply elem_of_cons in Hk as [[= -> -> ->]|Hk];
              [repeat (apply elem_of_cons in Hf as [->|Hf]; [by eauto|]);
               by apply elem_of_nil in Hf|]);
      by apply elem_of_nil in Hk.
Qed.

End ConnFacts.

(** ** The rendering of errors *)

Module ErrorsFacts.
Import Errors.

(** An explicit message wins: the rendering is the kind and the message,
    whatever the other fields are. *)
Lemma render_message kind phrase e m :
  msg e = Some m → render kind phrase e = kind +:+ " " +:+ m.
Proof. intros Hm. unfold render. by rewrite Hm. Qed.

(** With the qualified name of the Python class as the kind, the rendering
    gives the strings [test_no_such_process__repr__] expects. *)
Lemma render_NoSuchProcess_test :
  render "psutil.NoSuchProcess" "process no longer exists" (NotFound 321 None None)
  = "psutil.NoSuchProcess process no longer exists (pid=321)"
  ∧ render "psutil.NoSuchProcess" "process no longer exists"
      (NotFound 321 (Some "foo") None)
    = "psutil.NoSuchProcess process no longer exists (pid=321, name='foo')"
  ∧ render "psutil.NoSuchProcess" "process no longer exists"
      (NotFound 321 None (Some "foo"))
    = "psutil.NoSuchProcess foo".
Proof. repeat split; vm_compute; reflexivity. Qed.

(** C7: a [NotFound] error made with [pid=321] renders as
    ["NotFound process no longer exists (pid=321)"]; with [name="foo"] as
    well, as ["NotFound process no longer exists (pid=321, name='foo')"];
    with the explicit message ["foo"], as ["NotFound foo"]; and whenever a
    message is given the rendering is the kind followed by the message,
    without the pid or the name. *)
Theorem render_NotFound_samples :
  render_NotFound (NotFound 321 None None)
  = "NotFound process no longer exists (pid=321)"
  ∧ render_NotFound (NotFound 321 (Some "foo") None)
    = "NotFound process no longer exists (pid=321, name='foo')"
  ∧ render_NotFound (NotFound 321 None (Some "foo")) = "NotFound foo"
  ∧ (∀ pid name m,
       render_NotFound (NotFound pid name (Some m)) = "NotFound " +:+ m).
Proof.
  split; [vm_compute; reflexivity|].
  split; [vm_compute; reflexivity|].
  split; [vm_compute; reflexivity|].
  intros pid name m. unfold render_NotFound.
  by rewrite (render_message _ _ _ m).
Qed.

End ErrorsFacts.

(** ** Process identity *)

Module IdentityFacts.
Import Identity.

Section Handles.

Context {T : Type} `{EqDecision T}.
Variable hash_tuple : Z * T → Z.

Abbreviation hash := (Identity.hash hash_tuple).
Abbreviation set_of := (Identity.set_of hash_tuple).

Lemma eq_handle (p q : Process (T:=T)) :
  eq p (Handle q) = true ↔ ident p = ident q.
Proof. unfold eq. apply bool_decide_eq_true. Qed.

Lemma eq_hash (p q : Process (T:=T)) :
  eq p (Handle q) = true → hash p = hash q.
Proof. intros Heq%eq_handle. unfold Identity.hash. by rewrite Heq. Qed.

Lemma set_of_pair (p q : Process (T:=T)) :
  eq p (Handle q) = true → set_of [p; q] = [p].
Proof.
  intros Heq.
  change (set_of [p; q])
    with (if (hash p =? hash q) && eq p (Handle q) || false
          then [p] else [p] ++ [q]).
  by rewrite (eq_hash p q Heq), Z.eqb_refl, Heq.
Qed.

(** C8: two handles are equal iff their [(pid, create_time)] tuples match
    in both components; equal handles have the same hash, so that a set
    made of two equal handles has one member; and a handle compared with a
    value that is not a handle is not equal to it (the comparison answers,
    it does not fail). *)
Theorem process_identity :
  (∀ p q : Process (T:=T),
     eq p (Handle q) = true
     ↔ (ident p).1 = (ident q).1 ∧ (ident p).2 = (ident q).2)
  ∧ (∀ p q : Process (T:=T), eq p (Handle q) = true → hash p = hash q)
  ∧ (∀ p q : Process (T:=T),
       eq p (Handle q) = true → length (set_of [p; q]) = 1%nat)
  ∧ (∀ (p : Process (T:=T)) other,
       (∀ q, other ≠ Handle q) → eq p other = false).
Proof.
  split.
  { intros p q. rewrite eq_handle.
    destruct (ident p), (ident q); simpl. split; [by intros [= -> ->]|].
    by intros [-> ->]. }
  split; [apply eq_hash|].
  split; [intros p q Heq; by rewrite set_of_pair|].
  intros p [q| | |] Hother; [by destruct (Hother q)|done..].
Qed.

End Handles.

(** Two handles for pid 321 created at the same time. *)
Lemma process_identity_witness :
  Identity.hash (λ i, i.1 + i.2) {| ident := (321, 1000) |}
  = Identity.hash (λ i, i.1 + i.2) {| ident := (321, 1000) |}
  ∧ length (Identity.set_of (λ i, i.1 + i.2)
              [ {| ident := (321, 1000) |}; {| ident := (321, 1000) |} ]) = 1%nat
  ∧ eq {| ident := (321, 1000) |} (Str "foo") = false.
Proof.
  pose proof (process_identity (T:=Z) (λ i, i.1 + i.2)) as (_ & Hh & Hs & Ho).
  split; [by apply Hh|]. split; [by apply Hs|]. by apply Ho.
Defined.

End IdentityFacts.

(** ** More on the percentage utility *)

Module PercentMore.
Import Py Percent.

Lemma mul_hundred q :
  ∃ x, mul (PyFloat q) (PyInt 100) = Return (PyFloat x).
Proof. by eexists. Qed.

Lemma truediv_result used total v :
  truediv used total = Return v → ∃ q, v = PyFloat q.
Proof.
  destruct used as [a|x], total as [b|y]; simpl;
    unfold long_true_divide, float_div; simpl.
  - destruct (b =? 0); [done|].
    destruct (SFdiv prec emax (exact a) (exact b)); intros [= <-]; eauto.
  - destruct (long_as_double a); simpl; [|done].
    destruct (float_is_zero y); [done|]. intros [= <-]; eauto.
  - destruct (long_as_double b) as [y|]; simpl; [|done].
    destruct (float_is_zero y); [done|]. intros [= <-]; eauto.
  - destruct (float_is_zero y); [done|]. intros [= <-]; eauto.
Qed.

(** The value of [(used / total) * 100] is a float whenever there is
    one. *)
Lemma percentage_result used total v :
  bind (truediv used total) (λ q, mul q (PyInt 100)) = Return v →
  ∃ x, v = PyFloat x.
Proof.
  destruct (truediv used total) as [q|e] eqn:Hq; simpl; [|done].
  destruct (truediv_result _ _ _ Hq) as [q' ->].
  destruct (mul_hundred q') as [x ->]. intros [= <-]. eauto.
Qed.

(** X2: [usage_percent] never raises [ZeroDivisionError], whatever the
    operands and the number of digits. *)
Theorem usage_percent_no_zero_division round used total _round :
  usage_percent round used total _round ≠ Raise ZeroDivisionError.
Proof.
  unfold usage_percent.
  destruct (bind (truediv used total) (λ q, mul q (PyInt 100)))
    as [v|[|]]; simpl; by destruct _round.
Qed.

(** X3: when [usage_percent], without rounding, returns an [int], that
    [int] is 0, both operands are [int]s and [total] is 0: every other
    result is a [float]. *)
Theorem usage_percent_int_result round used total n :
  usage_percent round used total None = Return (PyInt n) →
  n = 0 ∧ isinstance_float used = false ∧ isinstance_float total = false
  ∧ is_zero total = true.
Proof.
  unfold usage_percent.
  destruct (bind (truediv used total) (λ q, mul q (PyInt 100)))
    as [v|[|]] eqn:Hb; simpl.
  - destruct (percentage_result _ _ _ Hb) as [x ->]. done.
  - destruct used as [a|x], total as [b|y]; simpl; try done.
    intros [= <-]. repeat split. revert Hb. simpl. unfold long_true_divide.
    destruct (b =? 0); [done|].
    by destruct (SFdiv prec emax (exact a) (exact b)).
  - done.
Qed.

Lemma usage_percent_int_result_witness :
  0 = 0 ∧ isinstance_float (PyInt 7) = false
  ∧ isinstance_float (PyInt 0) = false ∧ is_zero (PyInt 0) = true.
Proof.
  apply (usage_percent_int_result round_keep (PyInt 7) (PyInt 0) 0).
  reflexivity.
Defined.

(** X4: with two [float] operands and no rounding [usage_percent] never
    raises, for any floats (zeros, infinities and NaN included): a zero
    [total] gives [0.0], any other the float [(used / total) * 100]. *)
Theorem usage_percent_floats_return round x y :
  usage_percent round (PyFloat x) (PyFloat y) None
  = Return (PyFloat
      (if float_is_zero y then S754_zero false
       else SFmul prec emax (SFdiv prec emax x y)
              (binary_normalize prec emax 100 0 false))).
Proof.
  unfold usage_percent, truediv, float_div. simpl.
  by destruct (float_is_zero y).
Qed.

(** An [int] beyond the float range over a float: the conversion's
    [OverflowError] leaves [usage_percent]. *)
Lemma usage_percent_overflow_witness :
  usage_percent round_keep (PyInt (10 ^ 400))
    (PyFloat (S754_finite false 4503599627370496 (-52))) (Some 2)
  = Raise OverflowError.
Proof.
  apply PercentFacts.usage_percent_overflow. vm_compute. reflexivity.
Defined.

End PercentMore.

(** ** The platform constants *)

Module PlatformFacts.
Import Platform.

Lemma prefix_cons a p c s :
  String.prefix (String a p) (String c s)
  = if Ascii.eqb a c then String.prefix p s else false.
Proof.
  change (String.prefix (String a p) (String c s))
    with (if ascii_dec a c then String.prefix p s else false).
  destruct (ascii_dec a c), (Ascii.eqb_spec a c); done.
Qed.

(** Splits on the first character of [sys.platform] where a flag tests
    it. *)
Ltac first_char :=
  match goal with
  | |- context [Ascii.eqb ?ch ?c] =>
      is_var c; destruct (Ascii.eqb_spec ch c) as [<-|]
  end.

(** Closes a goal about flags that are all known. *)
Ltac settle :=
  repeat match goal with
    | |- context [String.prefix ?p ?s] => destruct (String.prefix p s)
    end;
  repeat split; intros; try done;
  try (vm_compute in *; first [done | lia | discriminate]).

(** X6: whatever [sys.platform] and [os.name] are, at most one of [LINUX],
    [OSX], [FREEBSD], [OPENBSD], [NETBSD] and [SUNOS] is set; [BSD] is set
    exactly when one of the three BSD flags is, and then neither [LINUX]
    nor [OSX] nor [SUNOS] is; and [POSIX] and [WINDOWS] are never both
    set. *)
Theorem platform_flags_exclusive (os_name sys_platform : string) :
  (count_set [LINUX sys_platform; OSX sys_platform; FREEBSD sys_platform;
              OPENBSD sys_platform; NETBSD sys_platform; SUNOS sys_platform]
   ≤ 1)%nat
  ∧ (BSD sys_platform = true
     ↔ count_set [FREEBSD sys_platform; OPENBSD sys_platform;
                  NETBSD sys_platform] = 1%nat)
  ∧ (BSD sys_platform = true →
     LINUX sys_platform = false ∧ OSX sys_platform = false
     ∧ SUNOS sys_platform = false)
  ∧ (POSIX os_name && WINDOWS os_name = false).
Proof.
  assert (POSIX os_name && WINDOWS os_name = false) as Hos.
  { unfold POSIX, WINDOWS. destruct (String.eqb_spec os_name "posix") as [->|];
      [reflexivity|done]. }
  refine (conj _ (conj _ (conj _ Hos))); clear Hos;
    unfold count_set, BSD, LINUX, OSX, FREEBSD, OPENBSD, NETBSD, SUNOS,
      startswith;
    (destruct sys_platform as [|? ?]; [vm_compute; settle|]);
    rewrite !prefix_cons; repeat first_char; settle.
Qed.

End PlatformFacts.

(** ** The strict file checks *)

Module FilesFacts.
Import Py Files.

Section Strict.

Variable errno : errno_module.
Variable os_stat : string → outcome exn stat_result.

Abbreviation isfile_strict := (isfile_strict errno os_stat).
Abbreviation path_exists_strict := (path_exists_strict errno os_stat).

(** X7: the two strict checks agree on every path: they raise for the same
    failures of [os.stat], with the same exception; a path that
    [isfile_strict] accepts exists for [path_exists_strict]; and a path
    that does not exist is not a file. *)
Theorem strict_checks_agree (path : string) :
  (∀ e, isfile_strict path = Raise e ↔ path_exists_strict path = Raise e)
  ∧ (isfile_strict path = Return true → path_exists_strict path = Return true)
  ∧ (path_exists_strict path = Return false →
     isfile_strict path = Return false).
Proof.
  unfold Files.isfile_strict, Files.path_exists_strict.
  destruct (os_stat path) as [st|[e|name]]; [|destruct (denied errno e)|];
    repeat split; done.
Qed.

(** X8: an [OSError] leaves either check only with the [errno] [EPERM] or
    [EACCES], and it is the error [os.stat] raised; with any other [errno]
    ([ENOENT], [EINVAL], ...) both checks answer [False]. *)
Theorem strict_checks_errors (path : string) (e : Z) :
  (isfile_strict path = Raise (OSError e) ∨
   path_exists_strict path = Raise (OSError e) →
   os_stat path = Raise (OSError e)
   ∧ (e = errno.(EPERM) ∨ e = errno.(EACCES)))
  ∧ (os_stat path = Raise (OSError e) →
     e ≠ errno.(EPERM) → e ≠ errno.(EACCES) →
     isfile_strict path = Return false
     ∧ path_exists_strict path = Return false).
Proof.
  unfold Files.isfile_strict, Files.path_exists_strict, denied.
  split.
  - destruct (os_stat path) as [st|[e'|name]]; [intros [|]; done| |intros [|]; done].
    destruct (Z.eqb_spec e' errno.(EPERM)), (Z.eqb_spec e' errno.(EACCES));
      simpl; intros [[= ->]|[= ->]]; auto.
  - intros -> H1 H2.
    destruct (Z.eqb_spec e errno.(EPERM)), (Z.eqb_spec e errno.(EACCES));
      done.
Qed.

End Strict.

(** On the sample file system: the file is a file, the directory exists but
    is no file, the missing path is neither, and the unreadable path makes
    both checks raise. *)
Lemma strict_checks_agree_witness :
  path_exists_strict posix_errno sample_stat "/etc/hosts" = Return true.
Proof.
  apply (strict_checks_agree posix_errno sample_stat "/etc/hosts").
  reflexivity.
Defined.

Lemma strict_checks_errors_witness :
  isfile_strict posix_errno sample_stat "/nowhere" = Return false
  ∧ path_exists_strict posix_errno sample_stat "/nowhere" = Return false.
Proof.
  apply (strict_checks_errors posix_errno sample_stat "/nowhere" 2);
    [reflexivity|done|done].
Defined.

End FilesFacts.

(** ** The IPv6 probe *)

Module Ipv6Facts.
Import Py Ipv6.

(** X9: [supports_ipv6()] answers [True] exactly when [socket.has_ipv6] is
    set, the module has [AF_INET6], the socket is created and the bind to
    [::1] succeeds. *)
Theorem supports_ipv6_true (s : socket_module) (st : sockets) :
  (supports_ipv6 s st).1 = Return true
  ↔ s.(has_ipv6) = true ∧ s.(has_AF_INET6) = true
    ∧ s.(socket) = Return () ∧ s.(bind) = Return ().
Proof.
  unfold supports_ipv6, on_error.
  destruct s as [h a [[]|e] [[]|e']]; simpl; destruct h, a; simpl;
    repeat match goal with
      | |- context [is_socket_error ?e] => destruct (is_socket_error e)
      end;
    (split; [intros ?|intros (?&?&?&?)]; try done; by repeat split).
Qed.

(** X10: [supports_ipv6()] leaves no socket open: whatever happens (early
    answer, failure of the creation, failure of the bind, an exception that
    is no socket error), it has closed as many sockets as it has opened,
    and it opens at most one. *)
Theorem supports_ipv6_closes (s : socket_module) (st : sockets) :
  (opened (supports_ipv6 s st).2 + closed st
   = opened st + closed (supports_ipv6 s st).2)%nat
  ∧ (opened (supports_ipv6 s st).2 ≤ S (opened st))%nat
  ∧ (opened st ≤ opened (supports_ipv6 s st).2)%nat.
Proof.
  unfold supports_ipv6.
  destruct s as [h a [[]|e] [[]|e']], st as [o c]; simpl;
    destruct h, a; simpl; lia.
Qed.

(** X11: a socket error, [socket.gaierror] included, never leaves
    [supports_ipv6()]: the answer is then [False]; any other exception of
    the creation or of the bind is passed on. *)
Theorem supports_ipv6_errors (s : socket_module) (st : sockets) :
  (∀ e, (supports_ipv6 s st).1 = Raise e →
        is_socket_error e = false
        ∧ (s.(socket) = Raise e ∨ s.(bind) = Raise e))
  ∧ (s.(has_ipv6) = true → s.(has_AF_INET6) = true →
     ∀ e, is_socket_error e = true →
          s.(socket) = Raise e ∨ (s.(socket) = Return () ∧ s.(bind) = Raise e) →
          (supports_ipv6 s st).1 = Return false).
Proof.
  unfold supports_ipv6, on_error. split.
  - intros e0.
    destruct s as [h a [[]|e] [[]|e']]; simpl; destruct h, a; simpl;
      try done;
      try (destruct (is_socket_error e) eqn:He; [done|intros [= <-]; auto]);
      try (destruct (is_socket_error e') eqn:He'; [done|intros [= <-]; auto]).
  - intros -> -> e He [Hs|[Hs Hb]]; simpl; rewrite Hs; [|rewrite Hb];
      simpl; by rewrite He.
Qed.

End Ipv6Facts.

(** ** More on the connection-kind table *)

Module ConnMore.
Import Conn ConnFacts.

(** Takes an entry of a listing apart, one key after the other. *)
Ltac each_entry H tac :=
  repeat (apply elem_of_cons in H as [[= -> -> ->]|H]; [tac|]);
  try (by apply elem_of_nil in H).

(** Shows that a list given in full is included in another. *)
Ltac included :=
  let x := fresh "x" in
  let Hx := fresh "Hx" in
  intros x Hx;
  repeat (apply elem_of_cons in Hx as [->|Hx]; [by repeat constructor|]);
  by apply elem_of_nil in Hx.

(** X12: the keys of the table are the eight kinds of the literal,
    together with [tcp6] and [udp6] when [AF_INET6] is there and with
    [unix] when [AF_UNIX] is there, and no other: the table has 8, 9, 10
    or 11 kinds. *)
Theorem conn_tmap_domain (socket : socket_module) :
  dom (conn_tmap socket)
  = list_to_set
      (["all"; "tcp"; "tcp4"; "udp"; "udp4"; "inet"; "inet4"; "inet6"]
       ++ (if socket.(AF_INET6) is Some _ then ["tcp6"; "udp6"] else [])
       ++ (if socket.(AF_UNIX) is Some _ then ["unix"] else []))
  ∧ size (conn_tmap socket)
    = (8 + (if socket.(AF_INET6) is Some _ then 2 else 0)
       + (if socket.(AF_UNIX) is Some _ then 1 else 0))%nat.
Proof.
  split.
  - rewrite conn_tmap_listing, dom_list_to_map_L.
    by destruct socket as [inet stream dgram [inet6|] [unix|]].
  - by destruct socket as [inet stream dgram [inet6|] [unix|]].
Qed.

(** X13: [all] is the widest kind: the families and the socket types of
    every entry of the table are among those of the entry [all]. *)
Theorem conn_tmap_all_widest (socket : socket_module) kind fams types :
  conn_tmap socket !! kind = Some (fams, types) →
  ∃ all_fams all_types,
    conn_tmap socket !! "all" = Some (all_fams, all_types)
    ∧ fams ⊆ all_fams ∧ types ⊆ all_types.
Proof.
  intros Hk%conn_tmap_entry.
  exists [Some socket.(AF_INET); socket.(AF_INET6); socket.(AF_UNIX)],
    [socket.(SOCK_STREAM); socket.(SOCK_DGRAM)].
  destruct socket as [inet stream dgram [inet6|] [unix|]];
    unfold listing in Hk; simpl in *;
    (split; [reflexivity|]);
    each_entry Hk ltac:(split; included).
Qed.

Lemma conn_tmap_all_widest_witness :
  ∃ all_fams all_types,
    conn_tmap linux_no_ipv6 !! "all" = Some (all_fams, all_types)
    ∧ [Some 2; None] ⊆ all_fams ∧ [1] ⊆ all_types.
Proof.
  apply (conn_tmap_all_widest linux_no_ipv6 "tcp"). reflexivity.
Defined.

(** X14: the two conditional updates only add kinds: every entry of the
    dictionary literal is in the loaded table, unchanged. *)
Theorem conn_tmap_keeps_literal (socket : socket_module) kind e :
  conn_tmap_literal socket !! kind = Some e →
  conn_tmap socket !! kind = Some e.
Proof.
  intros Hk%elem_of_list_to_map_2.
  destruct socket as [inet stream dgram [inet6|] [unix|]]; simpl in *;
    repeat (apply elem_of_cons in Hk as [[= -> ->]|Hk]; [reflexivity|]);
    by apply elem_of_nil in Hk.
Qed.

Lemma conn_tmap_keeps_literal_witness :
  conn_tmap linux_no_ipv6 !! "inet4" = Some ([Some 2], [1; 2]).
Proof.
  apply (conn_tmap_keeps_literal linux_no_ipv6 "inet4"). reflexivity.
Defined.

(** X15: the socket types of a kind follow from its name: a kind whose
    name starts with [tcp] lists [SOCK_STREAM] only, one whose name starts
    with [udp] lists [SOCK_DGRAM] only, and every other kind lists both. *)
Theorem conn_tmap_types (socket : socket_module) kind fams types :
  conn_tmap socket !! kind = Some (fams, types) →
  types
  = if String.prefix "tcp" kind then [socket.(SOCK_STREAM)]
    else if String.prefix "udp" kind then [socket.(SOCK_DGRAM)]
    else [socket.(SOCK_STREAM); socket.(SOCK_DGRAM)].
Proof.
  intros Hk%conn_tmap_entry.
  destruct socket as [inet stream dgram [inet6|] [unix|]];
    unfold listing in Hk; simpl in Hk;
    each_entry Hk ltac:(reflexivity).
Qed.

Lemma conn_tmap_types_witness : [2] = [2].
Proof.
  apply (conn_tmap_types linux_no_ipv6 "udp4" [Some 2] [2]). reflexivity.
Defined.

End ConnMore.

(** ** More on the environment block parser *)

Module EnvironMore.
Import PyStr Environ EnvironFacts.

(** *** Characters of the parts of an entry *)

Lemma index_of_app_none c a b :
  index_of c (a +:+ b) = None → index_of c a = None ∧ index_of c b = None.
Proof.
  induction a as [|x a IH]; [done|].
  rewrite app_String. simpl. destruct (Ascii.eqb x c); [done|].
  destruct (index_of c (a +:+ b)); [done|]. intros _.
  destruct IH as [-> ->]; done.
Qed.

Lemma split_eq_some e k v :
  split_eq e = Some (k, v) →
  e = k +:+ String EQUALS v ∧ index_of EQUALS k = None.
Proof.
  revert k. induction e as [|x e IH]; intros k; simpl; [done|].
  destruct (Ascii.eqb_spec x EQUALS) as [->|Hx].
  - by intros [= <- <-].
  - destruct (split_eq e) as [[k' v']|]; [|done]. intros [= <- <-].
    destruct (IH k' eq_refl) as [-> Hk]. split; [done|]. simpl.
    destruct (Ascii.eqb_spec x EQUALS); [done|]. by rewrite Hk.
Qed.

Lemma assignment_some_inv e k v :
  assignment e = Some (k, v) →
  e = k +:+ String EQUALS v ∧ index_of EQUALS k = None ∧ k ≠ "".
Proof.
  unfold assignment. destruct (split_eq e) as [[k' v']|] eqn:He; [|done].
  destruct (split_eq_some _ _ _ He) as [-> Hk].
  destruct k'; [done|]. by intros [= <- <-].
Qed.

Lemma split_nul_entries s : ∀ e, e ∈ fst (split_nul s) → index_of NUL e = None.
Proof.
  induction s as [|x s IH]; intros e; simpl.
  { by intros ?%elem_of_nil. }
  destruct (split_nul s) as [es t]. simpl in IH.
  destruct (Ascii.eqb x NUL) eqn:Hx; simpl.
  - intros [->|He]%elem_of_cons; [done|by apply IH].
  - destruct es as [|e0 es]; simpl; [by intros ?%elem_of_nil|].
    intros [->|He]%elem_of_cons.
    + simpl. rewrite Hx, (IH e0); [done|by left].
    + apply IH. by right.
Qed.

Lemma until_empty_elem e es : e ∈ until_empty es → e ∈ es.
Proof.
  induction es as [|e0 es IH]; [done|]. destruct e0; simpl.
  - by intros ?%elem_of_nil.
  - intros [->|He]%elem_of_cons; [by left|]. right. by apply IH.
Qed.

Lemma last_value_elem k v kvs : last_value k kvs = Some v → (k, v) ∈ kvs.
Proof.
  induction kvs as [|[k' v'] kvs IH]; simpl; [done|].
  destruct (last_value k kvs) as [v0|].
  - intros [= ->]. right. by apply IH.
  - destruct (decide (k' = k)) as [->|]; [|done]. intros [= ->]. by left.
Qed.

(** *** [upper] *)

Lemma upper_ascii_idemp a : upper_ascii (upper_ascii a) = upper_ascii a.
Proof. by destruct a as [[] [] [] [] [] [] [] []]. Qed.

Lemma upper_idemp s : upper (upper s) = upper s.
Proof.
  induction s as [|a s IH]; [done|]. simpl. by rewrite upper_ascii_idemp, IH.
Qed.

Lemma upper_ascii_nul a : Ascii.eqb (upper_ascii a) NUL = Ascii.eqb a NUL.
Proof. by destruct a as [[] [] [] [] [] [] [] []]. Qed.

Lemma upper_ascii_equals a :
  Ascii.eqb (upper_ascii a) EQUALS = Ascii.eqb a EQUALS.
Proof. by destruct a as [[] [] [] [] [] [] [] []]. Qed.

Lemma index_of_upper c s :
  c = NUL ∨ c = EQUALS → index_of c (upper s) = index_of c s.
Proof.
  intros Hc. induction s as [|a s IH]; [done|]. simpl.
  replace (Ascii.eqb (upper_ascii a) c) with (Ascii.eqb a c)
    by (destruct Hc as [->| ->];
        [by rewrite upper_ascii_nul|by rewrite upper_ascii_equals]).
  by rewrite IH.
Qed.

Lemma norm_key_chars W c k :
  c = NUL ∨ c = EQUALS → index_of c (norm_key W k) = index_of c k.
Proof. intros Hc. destruct W; [by apply index_of_upper|done]. Qed.

Lemma norm_key_empty W k : norm_key W k = "" → k = "".
Proof. destruct W; [|done]. by destruct k. Qed.

(** *** Where an item of the result comes from *)

Lemma parse_environ_block_item W data ret k v :
  parse_environ_block W data = Some ret → ret !! k = Some v →
  ∃ e k0, e ∈ complete_entries data ∧ assignment e = Some (k0, v)
          ∧ k = norm_key W k0.
Proof.
  rewrite parse_loop_complete. intros [= <-]. unfold environ_of.
  rewrite store_all_lookup, lookup_empty.
  destruct (last_value k (assignments W data)) as [v'|] eqn:Hl; [|done].
  simpl. intros [= ->]. apply last_value_elem in Hl.
  unfold assignments in Hl.
  apply list_elem_of_fmap in Hl as ([k0 v0] & [= -> ->] & Hin).
  apply list_elem_of_omap in Hin as (e & He & Ha). eauto.
Qed.

(** X16: every key of the mapping [parse_environ_block] returns is
    non-empty and holds neither [=] nor a terminator, and no value holds a
    terminator, on either kind of platform. *)
Theorem parse_environ_block_wellformed W data ret k v :
  parse_environ_block W data = Some ret → ret !! k = Some v →
  k ≠ "" ∧ index_of EQUALS k = None ∧ index_of NUL k = None
  ∧ index_of NUL v = None.
Proof.
  intros Hp Hk.
  destruct (parse_environ_block_item _ _ _ _ _ Hp Hk)
    as (e & k0 & He & Ha & ->).
  apply assignment_some_inv in Ha as (-> & Heq & Hne).
  apply until_empty_elem, split_nul_entries in He.
  apply index_of_app_none in He as [Hk0 Hv].
  simpl in Hv. destruct (Ascii.eqb EQUALS NUL) eqn:Hc; [done|].
  destruct (index_of NUL v) eqn:Hv'; [done|].
  repeat split.
  - by intros ?%norm_key_empty.
  - rewrite norm_key_chars by auto. done.
  - rewrite norm_key_chars by auto. done.
Qed.

Lemma parse_environ_block_wellformed_witness :
  "A" ≠ "" ∧ index_of EQUALS "A" = None ∧ index_of NUL "A" = None
  ∧ index_of NUL "1=2" = None.
Proof.
  apply (parse_environ_block_wellformed true ("a=1=2" +:+ nul)
           {[ "A" := "1=2" ]} "A" "1=2").
  - vm_compute. reflexivity.
  - vm_compute. reflexivity.
Defined.

(** X17: where [WINDOWS] is true and the block is ASCII text, every key of
    the result is in upper case (it is its own [upper()]): it is the
    [upper()] of the non-empty text in front of the first [=] of a complete
    entry, and its value is the text after that [=], in the case it has
    there. *)
Theorem parse_environ_block_windows_keys data ret k v :
  Text.is_ascii data = true →
  parse_environ_block true data = Some ret → ret !! k = Some v →
  upper k = k
  ∧ ∃ k0, k0 ≠ "" ∧ index_of EQUALS k0 = None
          ∧ (k0 +:+ String EQUALS v) ∈ complete_entries data
          ∧ k = upper k0.
Proof.
  intros _ Hp Hk.
  destruct (parse_environ_block_item _ _ _ _ _ Hp Hk)
    as (e & k0 & He & Ha & ->).
  apply assignment_some_inv in Ha as (-> & Heq & Hne). simpl.
  split; [apply upper_idemp|]. by exists k0.
Qed.

Lemma parse_environ_block_windows_keys_witness :
  upper "PATH" = "PATH"
  ∧ ∃ k0, k0 ≠ "" ∧ index_of EQUALS k0 = None
          ∧ (k0 +:+ String EQUALS "/usr/Bin=x")
            ∈ complete_entries ("Path=/usr/Bin=x" +:+ nul)
          ∧ "PATH" = upper k0.
Proof.
  apply (parse_environ_block_windows_keys ("Path=/usr/Bin=x" +:+ nul)
           {[ "PATH" := "/usr/Bin=x" ]} "PATH" "/usr/Bin=x").
  - vm_compute. reflexivity.
  - vm_compute. reflexivity.
  - vm_compute. reflexivity.
Defined.

End EnvironMore.

(** ** More on the memoization primitive *)

Module MemoMore.
Import Py Memo MemoOps MemoFacts.

Section Runs.

Context {V R E : Type} `{Countable V}.
Variable fun_ : list V → list (string * V) → outcome E R.

Abbreviation signature := (list V * gset (string * V))%type.
Abbreviation wrapper := (wrapper fun_).
Abbreviation run := (run fun_).
Abbreviation exec := (exec fun_).
Abbreviation sound := (sound fun_).

Implicit Types args : list V.
Implicit Types kwargs : list (string * V).
Implicit Types m : memo (V:=V) (R:=R).
Implicit Types k : signature.
Implicit Types cs : list (call (V:=V)).
Implicit Types ops : list (op (V:=V)).

(** *** The cache holds results of the function *)

Lemma sound_memoize : sound memoize.
Proof. intros k r Hc. simpl in Hc. by rewrite lookup_empty in Hc. Qed.

Lemma sound_cache_clear m : sound (cache_clear m).
Proof. intros k r Hc. simpl in Hc. by rewrite lookup_empty in Hc. Qed.

Lemma sound_wrapper args kwargs m : sound m → sound (wrapper args kwargs m).2.
Proof.
  intros Hm k r. unfold Memo.wrapper.
  destruct (cache m !! key_of args kwargs) eqn:Hc; [apply Hm|].
  destruct (fun_ args kwargs) as [ret|e] eqn:Hf; simpl.
  - destruct (decide (key_of args kwargs = k)) as [<-|Hne].
    + rewrite lookup_insert_eq. intros [= <-].
      exists (args, kwargs). split; [apply elem_of_app; right; by left|done].
    + rewrite lookup_insert_ne by done. intros (c & Hc' & ?)%Hm.
      exists c. split; [apply elem_of_app; by left|done].
  - intros (c & Hc' & ?)%Hm.
    exists c. split; [apply elem_of_app; by left|done].
Qed.

Lemma sound_exec ops : ∀ m, sound m → sound (exec ops m).
Proof.
  induction ops as [|o ops IH]; intros m Hm; [done|].
  apply IH. destruct o as [args kwargs|]; simpl.
  - by apply sound_wrapper.
  - apply sound_cache_clear.
Qed.

Lemma wrapper_sound ops args kwargs :
  match (wrapper args kwargs (exec ops memoize)).1 with
  | Return r =>
      ∃ args' kwargs',
        key_of args' kwargs' = key_of args kwargs
        ∧ fun_ args' kwargs' = Return r
  | Raise e => fun_ args kwargs = Raise e
  end.
Proof.
  pose proof (sound_exec ops memoize sound_memoize) as Hs.
  unfold Memo.wrapper.
  destruct (cache (exec ops memoize) !! key_of args kwargs) as [r|] eqn:Hc.
  - simpl. destruct (Hs _ _ Hc) as ([a' k'] & _ & Hk & Hr). eauto.
  - destruct (fun_ args kwargs) as [r|e] eqn:Hf; simpl; eauto.
Qed.

(** X18: after any sequence of calls and [cache_clear()]s on a fresh
    wrapper, the cache holds only values the function returned for a
    recorded call with the signature they are stored under; so a call that
    returns gives a value the function returned for a call with the same
    signature, and a call that raises raises what the function raises for
    this very call. *)
Theorem memoize_results_sound ops args kwargs :
  sound (exec ops memoize)
  ∧ match (wrapper args kwargs (exec ops memoize)).1 with
    | Return r =>
        ∃ args' kwargs',
          key_of args' kwargs' = key_of args kwargs
          ∧ fun_ args' kwargs' = Return r
    | Raise e => fun_ args kwargs = Raise e
    end.
Proof.
  split; [apply sound_exec, sound_memoize|apply wrapper_sound].
Qed.

(** X19: for a function that gives the same outcome to calls with the same
    signature, memoization cannot be seen in the results: after any
    sequence of calls and [cache_clear()]s, the wrapper gives exactly what
    the function gives. *)
Theorem memoize_transparent ops args kwargs :
  respects_signature fun_ →
  (wrapper args kwargs (exec ops memoize)).1 = fun_ args kwargs.
Proof.
  intros Hresp. pose proof (wrapper_sound ops args kwargs) as Hs.
  destruct (wrapper args kwargs (exec ops memoize)).1 as [r|e].
  - destruct Hs as (a' & k' & Hk & Hr). by rewrite <- (Hresp _ _ _ _ Hk).
  - done.
Qed.

(** *** How often the function is called *)

Lemma size_empty_difference (D : gset signature) :
  size ((∅ : gset signature) ∖ D) = 0%nat.
Proof.
  apply size_empty_iff, elem_of_equiv_empty. intros x.
  rewrite elem_of_difference. intros [Hx _]. by apply not_elem_of_empty in Hx.
Qed.

Lemma difference_seen k (S D : gset signature) :
  k ∈ D → ({[k]} ∪ S) ∖ D = S ∖ D.
Proof.
  intros Hk. apply set_eq. intros x.
  rewrite !elem_of_difference, elem_of_union, elem_of_singleton.
  split; [intros [[->|?] ?]; done|intros [? ?]; auto].
Qed.

Lemma size_difference_fresh k (S D : gset signature) :
  k ∉ D → size (({[k]} ∪ S) ∖ D) = Datatypes.S (size (S ∖ ({[k]} ∪ D))).
Proof.
  intros Hk.
  assert (({[k]} ∪ S) ∖ D = {[k]} ∪ S ∖ ({[k]} ∪ D)) as ->.
  { apply set_eq. intros x.
    rewrite !elem_of_difference, !elem_of_union, !elem_of_difference,
      !elem_of_union, !elem_of_singleton.
    destruct (decide (x = k)) as [->|]; split; intuition. }
  rewrite size_union, size_singleton; [done|].
  intros x. rewrite elem_of_singleton, elem_of_difference, elem_of_union,
    elem_of_singleton. intuition.
Qed.

Lemma run_calls cs : ∀ m,
  (∀ args kwargs, returns (fun_ args kwargs)) →
  length (calls (run cs m))
  = (length (calls m)
     + size (list_to_set ((λ c, key_of c.1 c.2) <$> cs) ∖ dom (cache m)))%nat.
Proof.
  induction cs as [|c cs IH]; intros m Hret.
  { rewrite fmap_nil, list_to_set_nil, size_empty_difference.
    change (run [] m) with m. lia. }
  rewrite run_cons, IH by done. rewrite fmap_cons, list_to_set_cons.
  destruct (cache m !! key_of c.1 c.2) as [r|] eqn:Hc.
  - rewrite (wrapper_hit fun_ _ _ _ _ Hc), difference_seen; [done|].
    apply elem_of_dom. eauto.
  - destruct (wrapper_miss fun_ c.1 c.2 m Hc) as (_ & Hcalls & Hcache).
    destruct (Hret c.1 c.2) as [r Hr]. rewrite Hr in Hcache.
    rewrite Hcalls, Hcache, length_app, dom_insert_L.
    rewrite size_difference_fresh by (by apply not_elem_of_dom).
    simpl. lia.
Qed.

(** X20: for a function that always returns, a run of calls on a fresh
    wrapper calls the function as many times as the run has distinct
    signatures. *)
Theorem memoize_calls_distinct cs :
  (∀ args kwargs, returns (fun_ args kwargs)) →
  length (calls (run cs memoize))
  = size (list_to_set ((λ c, key_of c.1 c.2) <$> cs) : gset signature).
Proof.
  intros Hret. rewrite run_calls by done. simpl.
  by rewrite dom_empty_L, difference_empty_L.
Qed.

End Runs.

Lemma total_respects_signature : respects_signature total.
Proof.
  intros args kwargs args' kwargs' Hk.
  apply key_of_eq in Hk as [-> _]. done.
Qed.

(** A cached call, a cleared cache, and the same call with its keywords in
    another order. *)
Lemma memoize_transparent_witness :
  (wrapper total [1; 2] [("b", 2); ("a", 1)]
     (exec total [Call [1; 2] [("a", 1); ("b", 2)]; CacheClear;
                  Call [1; 2] [("a", 1); ("b", 2)]] memoize)).1
  = total [1; 2] [("b", 2); ("a", 1)].
Proof. apply memoize_transparent, total_respects_signature. Defined.

(** Three calls, two signatures. *)
Lemma memoize_calls_distinct_witness :
  length (calls (run arity [([1], []); ([1], [("a", 1)]); ([1], [])] memoize))
  = size (list_to_set ((λ c, key_of c.1 c.2)
                         <$> [([1], []); ([1], [("a", 1)]); ([1], [])])
          : gset (list Z * gset (string * Z))).
Proof. apply memoize_calls_distinct. intros args kwargs. by eexists. Defined.

End MemoMore.
